(** * HyperEngine: the orchestration scheduler

    A shallow embedding of [orchestrationengine.py]: the component
    contract ([BaseEngine]), the scheduler object
    ([OrchestrationEngine]) with its registry, its tick, its two
    execution modes and its fault policy; of the component of
    [inputengine.py]; and of the program [run.py].  The properties of the
    specification on shutdown and on the registry follow the definitions
    and their lemmas, then further properties read off the code, then the
    properties of the specification on one tick, on failures and on the
    world state, which rest on both.

    Conventions of the embedding.
    - The scheduler object is a record; every method is a function from
      the state before the call to an [Outcome]: the state after a normal
      return, the state after an exception escaped together with that
      exception, or [OutOfFuel] when the recursion budget is exhausted
      ([stop] and [_handle_engine_error] call each other without bound in
      the source).
    - Engines are Python objects.  The registry stores their identity
      ([eid]) with the two class attributes [name] and [priority]; the
      three hooks are looked up in a table of behaviours ([Hooks]).
    - [self.engines] names a Python list.  [register_engine] mutates that
      list in place, [unregister_engine] binds the attribute to a new
      list.  A [for] loop over [self.engines] keeps reading the list
      object it started on, so superseded lists are kept in [retired].
    - The three [try] statements have [except Exception] clauses: a hook
      failure is handed to [_handle_engine_error] when its class derives
      from [Exception], and escapes the method otherwise.
    - The world state is a record, the value of the dict.  Where the
      identity of that dict matters ([get_world_state]), dicts are named
      by references ([Aliasing]).
    - [print] and [traceback.print_exception] append to [console].
    - [calls] is a history variable: the scheduler appends one entry each
      time it invokes a hook.  Nothing in the scheduler reads it. *)

Set Warnings "-register-all".
From Stdlib Require Import PrimFloat.
From Stdlib Require Import ZArith String List Lia.
From stdpp Require Import base list sorting strings gmap.

Local Open Scope string_scope.
Local Open Scope Z_scope.
Local Open Scope list_scope.

Abbreviation float := PrimFloat.float.

(** ** Python values stored in the world state *)

Inductive PyVal : Type :=
| VNone
| VBool (b : bool)
| VInt (z : Z)
| VFloat (f : float)
| VStr (s : string)
| VList (l : list PyVal)
| VSet (l : list PyVal)
| VDict (d : list (string * PyVal)).

(** Exceptions are identified by their class and message.
    [is_Exception]: the class derives from [Exception], which is what an
    [except Exception] clause tests; it is false of [KeyboardInterrupt],
    [SystemExit], [GeneratorExit] and of classes derived from them or
    directly from [BaseException]. *)
Record Exn : Type := mkExn {
  exn_class : string;
  exn_msg : string;
  is_Exception : bool
}.

Definition TypeError (msg : string) : Exn := mkExn "TypeError" msg true.
Definition ZeroDivisionError (msg : string) : Exn :=
  mkExn "ZeroDivisionError" msg true.
Definition KeyboardInterrupt : Exn := mkExn "KeyboardInterrupt" "" false.

(** ** Shared world state: the dict built in [__init__] *)

Record WorldState : Type := mkWorld {
  time : float;
  tick : Z;
  entities : gmap string PyVal;
  events : list PyVal;
  meta : gmap string PyVal;
  extra : gmap string PyVal   (* keys added by components, e.g. "input" *)
}.

(** ** Engines *)

Record BaseEngine : Type := mkEngine {
  eid : nat;          (* object identity *)
  name : string;
  priority : Z        (* lower = runs earlier *)
}.

(** What [register_engine] may be handed: an instance of a subclass of
    [BaseEngine], or anything else. *)
Inductive PyObject : Type :=
| Engine (e : BaseEngine)
| NotAnEngine (v : PyVal).

Inductive HookCall : Type :=
| OnRegister (e : BaseEngine)
| Step (e : BaseEngine)
| OnShutdown (e : BaseEngine).

(** ** The scheduler object *)

Record OrchestrationEngine : Type := mkOrch {
  tick_rate : float;
  tick_duration : float;
  strict : bool;
  engines : list BaseEngine;            (* the list bound to self.engines *)
  retired : list (list BaseEngine);     (* lists self.engines was bound to before *)
  running : bool;
  world_state : WorldState;
  console : list string;
  calls : list HookCall
}.

Definition set_engines (l : list BaseEngine) (s : OrchestrationEngine) :=
  mkOrch (tick_rate s) (tick_duration s) (strict s) l (retired s)
         (running s) (world_state s) (console s) (calls s).

Definition rebind_engines (l : list BaseEngine) (s : OrchestrationEngine) :=
  mkOrch (tick_rate s) (tick_duration s) (strict s) l (retired s ++ [engines s])
         (running s) (world_state s) (console s) (calls s).

Definition set_running (b : bool) (s : OrchestrationEngine) :=
  mkOrch (tick_rate s) (tick_duration s) (strict s) (engines s) (retired s)
         b (world_state s) (console s) (calls s).

Definition set_world_state (w : WorldState) (s : OrchestrationEngine) :=
  mkOrch (tick_rate s) (tick_duration s) (strict s) (engines s) (retired s)
         (running s) w (console s) (calls s).

Definition print (line : string) (s : OrchestrationEngine) :=
  mkOrch (tick_rate s) (tick_duration s) (strict s) (engines s) (retired s)
         (running s) (world_state s) (console s ++ [line]) (calls s).

Definition record_call (c : HookCall) (s : OrchestrationEngine) :=
  mkOrch (tick_rate s) (tick_duration s) (strict s) (engines s) (retired s)
         (running s) (world_state s) (console s) (calls s ++ [c]).

(** Identity of the list currently bound to [self.engines], and the
    contents of a list given its identity. *)
Definition engines_id (s : OrchestrationEngine) : nat := length (retired s).

Definition list_at (s : OrchestrationEngine) (k : nat) : list BaseEngine :=
  if decide (k = engines_id s) then engines s else default [] (retired s !! k).

(** ** Hooks *)

Inductive HookResult : Type :=
| Returns (s : OrchestrationEngine)
| Raises (err : Exn) (s : OrchestrationEngine).

Definition after (r : HookResult) : OrchestrationEngine :=
  match r with Returns s => s | Raises _ s => s end.

(** The behaviour of every engine object.  A hook runs to completion and
    either returns or raises; it is given the scheduler state because a
    component may keep a reference to the scheduler and call it back. *)
Record Hooks : Type := mkHooks {
  on_register : BaseEngine -> OrchestrationEngine -> HookResult;
  step : BaseEngine -> OrchestrationEngine -> float -> HookResult;
  on_shutdown : BaseEngine -> OrchestrationEngine -> HookResult
}.

(** Components that keep to the contract see the world state only. *)
Inductive Reply : Type :=
| Return (w : WorldState)
| Raise (err : Exn) (w : WorldState).

Record Contract : Type := mkContract {
  c_on_register : BaseEngine -> WorldState -> Reply;
  c_step : BaseEngine -> WorldState -> float -> Reply;
  c_on_shutdown : BaseEngine -> WorldState -> Reply
}.

Definition on_world (r : Reply) (s : OrchestrationEngine) : HookResult :=
  match r with
  | Return w => Returns (set_world_state w s)
  | Raise err w => Raises err (set_world_state w s)
  end.

Definition contract_hooks (C : Contract) : Hooks :=
  mkHooks (fun e s => on_world (c_on_register C e (world_state s)) s)
          (fun e s dt => on_world (c_step C e (world_state s) dt) s)
          (fun e s => on_world (c_on_shutdown C e (world_state s)) s).

(** ** Outcomes of scheduler methods *)

Inductive Outcome : Type :=
| Done (s : OrchestrationEngine)
| Raised (err : Exn) (s : OrchestrationEngine)
| OutOfFuel.

(** ** [list.sort(key=lambda e: e.priority)]: a stable sort *)

Fixpoint insert_by_priority (e : BaseEngine) (l : list BaseEngine) : list BaseEngine :=
  match l with
  | [] => [e]
  | x :: l' => if priority e <=? priority x then e :: x :: l'
               else x :: insert_by_priority e l'
  end.

Definition sort_by_priority (l : list BaseEngine) : list BaseEngine :=
  foldr insert_by_priority [] l.

(** ** [__init__] *)

Definition empty_world : WorldState :=
  mkWorld 0.0%float 0 ∅ [] ∅ ∅.

Definition __init__ (rate : float) (strict_flag : bool) : Exn + OrchestrationEngine :=
  if (rate =? 0.0)%float
  then inl (ZeroDivisionError "float division by zero")
  else inr (mkOrch rate (1.0 / rate)%float strict_flag
                   [] [] false empty_world [] []).

(** ** Engine management, execution control, error policy *)

Definition unregister_engine (engine_name : string) (s : OrchestrationEngine)
  : OrchestrationEngine :=
  let s := rebind_engines
             (filter (fun e => name e ≠ engine_name) (engines s)) s in
  print ("[Orchestrator] Unregistered engine: " ++ engine_name) s.

Section Scheduler.

Variable H : Hooks.

(** [_handle_engine_error], given what [self.stop()] does. *)
Definition _handle_engine_error (stop : OrchestrationEngine -> Outcome)
    (engine : BaseEngine) (error : Exn) (s : OrchestrationEngine) : Outcome :=
  let s := print ("[Orchestrator] ERROR in engine '" ++ name engine ++ "'") s in
  let s := print ("Traceback: " ++ exn_class error ++ ": " ++ exn_msg error) s in
  if strict s then
    let s := print "[Orchestrator] Strict mode enabled. Shutting down." s in
    match stop s with
    | Done s' => Raised error s'
    | other => other
    end
  else
    let s := print ("[Orchestrator] Isolating engine '" ++ name engine ++ "'") s in
    Done (unregister_engine (name engine) s).

(** The statements of [stop] before its loop. *)
Definition stop_enter (s : OrchestrationEngine) : OrchestrationEngine :=
  set_running false (print "[Orchestrator] Stopping" s).

(** [stop], given its loop. *)
Definition stop_with (loop : nat -> nat -> OrchestrationEngine -> Outcome)
    (s : OrchestrationEngine) : Outcome :=
  let s := stop_enter s in
  loop (engines_id s) 0%nat s.

(** The loop of [stop]: a list iterator over the list object [k], at
    index [i]. *)
Fixpoint stop_loop (fuel : nat) (k i : nat) (s : OrchestrationEngine) : Outcome :=
  match fuel with
  | O => OutOfFuel
  | S fuel' =>
      match list_at s k !! i with
      | None => Done s
      | Some engine =>
          match on_shutdown H engine (record_call (OnShutdown engine) s) with
          | Returns s' => stop_loop fuel' k (S i) s'
          | Raises e s' =>
              if is_Exception e then
                match _handle_engine_error (stop_with (stop_loop fuel'))
                        engine e s' with
                | Done s'' => stop_loop fuel' k (S i) s''
                | other => other
                end
              else Raised e s'
          end
      end
  end.

Definition stop (fuel : nat) (s : OrchestrationEngine) : Outcome :=
  stop_with (stop_loop fuel) s.

Definition register_engine (fuel : nat) (engine : PyObject)
    (s : OrchestrationEngine) : Outcome :=
  match engine with
  | NotAnEngine _ => Raised (TypeError "Engine must inherit from BaseEngine") s
  | Engine engine =>
      let s := print ("[Orchestrator] Registering engine: " ++ name engine) s in
      let s := set_engines (engines s ++ [engine]) s in
      let s := set_engines (sort_by_priority (engines s)) s in
      match on_register H engine (record_call (OnRegister engine) s) with
      | Returns s' => Done s'
      | Raises e s' =>
          if is_Exception e then _handle_engine_error (stop fuel) engine e s'
          else Raised e s'
      end
  end.

(** The first three statements of [_tick]. *)
Definition tick_enter (s : OrchestrationEngine) : OrchestrationEngine :=
  let w := world_state s in
  let w := mkWorld (time w) (tick w + 1) (entities w) (events w) (meta w) (extra w) in
  let w := mkWorld (time w + tick_duration s)%float (tick w)
                   (entities w) (events w) (meta w) (extra w) in
  let w := mkWorld (time w) (tick w) (entities w) [] (meta w) (extra w) in
  set_world_state w s.

(** The loop of [_tick], over the copy [list(self.engines)]. *)
Fixpoint tick_loop (fuel : nat) (snapshot : list BaseEngine)
    (s : OrchestrationEngine) : Outcome :=
  match snapshot with
  | [] => Done s
  | engine :: rest =>
      match step H engine (record_call (Step engine) s) (tick_duration s) with
      | Returns s' => tick_loop fuel rest s'
      | Raises e s' =>
          if is_Exception e then
            match _handle_engine_error (stop fuel) engine e s' with
            | Done s'' => tick_loop fuel rest s''
            | other => other
            end
          else Raised e s'
      end
  end.

Definition _tick (fuel : nat) (s : OrchestrationEngine) : Outcome :=
  let s := tick_enter s in
  tick_loop fuel (engines s) s.

Definition step_once (fuel : nat) (s : OrchestrationEngine) : Outcome :=
  _tick fuel s.

End Scheduler.

(** ** Introspection *)

Definition list_engines (s : OrchestrationEngine) : list string :=
  name <$> engines s.

Definition get_world_state (s : OrchestrationEngine) : WorldState :=
  world_state s.

(** ** Callers of the registration API *)

Inductive ApiCall : Type :=
| CallRegister (o : PyObject)
| CallUnregister (engine_name : string).

Definition api_call (H : Hooks) (fuel : nat) (c : ApiCall)
    (s : OrchestrationEngine) : Outcome :=
  match c with
  | CallRegister o => register_engine H fuel o s
  | CallUnregister n => Done (unregister_engine n s)
  end.

(** A caller that issues the calls one after the other and carries on
    when one of them raises.  [None]: a call did not come back. *)
Fixpoint api_run (H : Hooks) (fuel : nat) (cs : list ApiCall)
    (s : OrchestrationEngine) : option OrchestrationEngine :=
  match cs with
  | [] => Some s
  | c :: cs' =>
      match api_call H fuel c s with
      | Done s' | Raised _ s' => api_run H fuel cs' s'
      | OutOfFuel => None
      end
  end.

(** ** Continuous mode: [start] and [_run_loop]

    [time.time()] and [time.sleep] are not part of the repository.  The
    successive readings of the clock are given as a list, one reading per
    call of [time.time()]; what [time.sleep] does with its argument
    (return, or raise) is a parameter.  [Pending]: the readings ran out
    while the loop was still running. *)

Inductive LoopOutcome : Type :=
| Exited (s : OrchestrationEngine)
| Failed (err : Exn) (s : OrchestrationEngine)
| Pending (s : OrchestrationEngine)
| Stuck.

Section RunLoop.

Variable H : Hooks.
Variable sleep : float -> option Exn.

(** The [while] loop of [_run_loop]. *)
Fixpoint run_loop_from (fuel : nat) (clock : list float) (last_time : float)
    (s : OrchestrationEngine) : LoopOutcome :=
  if running s then
    match clock with
    | [] => Pending s
    | now :: clock' =>
        let delta_time := (now - last_time)%float in
        if (tick_duration s <=? delta_time)%float then
          match _tick H fuel s with
          | Done s' => run_loop_from fuel clock' now s'
          | Raised err s' => Failed err s'
          | OutOfFuel => Stuck
          end
        else
          match sleep (tick_duration s - delta_time)%float with
          | None => run_loop_from fuel clock' last_time s
          | Some err => Failed err s
          end
    end
  else Exited s.

Definition _run_loop (fuel : nat) (clock : list float)
    (s : OrchestrationEngine) : LoopOutcome :=
  match clock with
  | [] => Pending s
  | last_time :: clock' => run_loop_from fuel clock' last_time s
  end.

Definition start (fuel : nat) (clock : list float)
    (s : OrchestrationEngine) : LoopOutcome :=
  let s := print "[Orchestrator] Starting" s in
  let s := set_running true s in
  _run_loop fuel clock s.

End RunLoop.

(** ** Callers of the whole API *)

Inductive MethodCall : Type :=
| DoRegister (o : PyObject)
| DoUnregister (engine_name : string)
| DoStop
| DoStepOnce.

Definition method_call (H : Hooks) (fuel : nat) (m : MethodCall)
    (s : OrchestrationEngine) : Outcome :=
  match m with
  | DoRegister o => register_engine H fuel o s
  | DoUnregister n => Done (unregister_engine n s)
  | DoStop => stop H fuel s
  | DoStepOnce => step_once H fuel s
  end.

(** A caller that carries on when a call raises. *)
Fixpoint drive (H : Hooks) (fuel : nat) (ms : list MethodCall)
    (s : OrchestrationEngine) : option OrchestrationEngine :=
  match ms with
  | [] => Some s
  | m :: ms' =>
      match method_call H fuel m s with
      | Done s' | Raised _ s' => drive H fuel ms' s'
      | OutOfFuel => None
      end
  end.

(** ** [inputengine.py] *)

Definition KeyError (key : string) : Exn := mkExn "KeyError" key true.
Definition AttributeError (msg : string) : Exn := mkExn "AttributeError" msg true.

(** [d[k]] and [d[k] = v] on a dict given as an association list. *)
Fixpoint dict_get (k : string) (d : list (string * PyVal)) : option PyVal :=
  match d with
  | [] => None
  | (k', v) :: d' => if decide (k' = k) then Some v else dict_get k d'
  end.

Fixpoint dict_set (k : string) (v : PyVal) (d : list (string * PyVal))
  : list (string * PyVal) :=
  match d with
  | [] => [(k, v)]
  | (k', v') :: d' => if decide (k' = k) then (k, v) :: d'
                      else (k', v') :: dict_set k v d'
  end.

Definition InputEngine : BaseEngine := mkEngine 0 "InputEngine" 10.

Definition input_on_register (w : WorldState) : Reply :=
  Return (mkWorld (time w) (tick w) (entities w) (events w) (meta w)
            (<["input" := VDict [("keys", VSet []); ("mouse", VNone);
                                 ("raw_events", VList [])]]> (extra w))).

Definition key_press (w : WorldState) : PyVal :=
  VDict [("type", VStr "key_press"); ("key", VStr "SPACE");
         ("time", VFloat (time w))].

Definition input_step (w : WorldState) (delta_time : float) : Reply :=
  if decide (tick w mod 60 = 0) then
    let event := key_press w in
    let w := mkWorld (time w) (tick w) (entities w) (events w ++ [event])
                     (meta w) (extra w) in
    match extra w !! "input" with
    | None => Raise (KeyError "input") w
    | Some (VDict d) =>
        match dict_get "raw_events" d with
        | None => Raise (KeyError "raw_events") w
        | Some (VList l) =>
            Return (mkWorld (time w) (tick w) (entities w) (events w) (meta w)
                      (<["input" :=
                           VDict (dict_set "raw_events" (VList (l ++ [event])) d)]>
                         (extra w)))
        | Some _ => Raise (AttributeError "append") w
        end
    | Some _ => Raise (TypeError "not subscriptable") w
    end
  else Return w.

Definition input_on_shutdown (w : WorldState) : Reply := Return w.

(** The behaviour of every instance of [InputEngine]. *)
Definition input_contract : Contract :=
  mkContract (fun _ => input_on_register) (fun _ => input_step)
             (fun _ => input_on_shutdown).

(** ** Vocabulary of the statements *)

(** The order [sort] establishes. *)
Definition by_priority (a b : BaseEngine) : Prop := priority a <= priority b.

(** Engines of priority [p]. *)
Definition has_priority (p : Z) (e : BaseEngine) : Prop := priority e = p.

#[global] Instance has_priority_dec p e : Decision (has_priority p e) :=
  Z.eq_dec (priority e) p.

(** The engines on which the scheduler invoked each hook, oldest first. *)
Definition registrations (cs : list HookCall) : list BaseEngine :=
  omap (fun c => match c with OnRegister e => Some e | _ => None end) cs.

Definition steps (cs : list HookCall) : list BaseEngine :=
  omap (fun c => match c with Step e => Some e | _ => None end) cs.

Definition shutdowns (cs : list HookCall) : list BaseEngine :=
  omap (fun c => match c with OnShutdown e => Some e | _ => None end) cs.

Definition reply_world (r : Reply) : WorldState :=
  match r with Return w => w | Raise _ w => w end.

(** No [on_shutdown] hook of the engines in [l] ever raises. *)
Definition quiet_shutdown (C : Contract) (l : list BaseEngine) : Prop :=
  ∀ e w, e ∈ l → ∃ w', c_on_shutdown C e w = Return w'.

(** The world after the [on_shutdown] hooks of [l] ran once each, in order. *)
Definition shutdown_fold (C : Contract) (l : list BaseEngine) (w : WorldState)
  : WorldState :=
  foldl (fun w e => reply_world (c_on_shutdown C e w)) w l.

Definition shutdown_state (C : Contract) (l : list BaseEngine)
    (s : OrchestrationEngine) : OrchestrationEngine :=
  mkOrch (tick_rate s) (tick_duration s) (strict s) (engines s) (retired s)
         (running s) (shutdown_fold C l (world_state s)) (console s)
         (calls s ++ (OnShutdown <$> l)).

(** What every scheduler method leaves alone, or only shrinks, when the
    components keep to the contract and no engine is being registered. *)
Record evolves (s s' : OrchestrationEngine) : Prop := mkEvolves {
  ev_rate : tick_rate s' = tick_rate s;
  ev_duration : tick_duration s' = tick_duration s;
  ev_strict : strict s' = strict s;
  ev_engines : engines s' `sublist_of` engines s;
  ev_kept : strict s = true → engines s' = engines s;
  ev_registrations : registrations (calls s') = registrations (calls s)
}.

Definition outcome_evolves (s : OrchestrationEngine) (o : Outcome) : Prop :=
  match o with
  | Done s' | Raised _ s' => evolves s s'
  | OutOfFuel => True
  end.

(** The state in which [register_engine] invokes [on_register]. *)
Definition enrolled (e : BaseEngine) (s : OrchestrationEngine) : OrchestrationEngine :=
  record_call (OnRegister e)
    (set_engines (sort_by_priority (engines s ++ [e]))
       (print ("[Orchestrator] Registering engine: " ++ name e) s)).

(** The registry is in ascending order of (priority, registration order):
    priorities ascend, and the entries of any one priority appear in the
    order in which they were registered. *)
Definition in_registration_order (s : OrchestrationEngine) : Prop :=
  StronglySorted by_priority (engines s) ∧
  ∀ p, filter (has_priority p) (engines s)
         `sublist_of` filter (has_priority p) (registrations (calls s)).

(** No call registers an engine under a name the registry holds at the
    time of the call. *)
Fixpoint never_reuses_name (H : Hooks) (fuel : nat) (cs : list ApiCall)
    (s : OrchestrationEngine) : Prop :=
  match cs with
  | [] => True
  | c :: cs' =>
      match c with
      | CallRegister (Engine e) => name e ∉ list_engines s
      | _ => True
      end ∧
      match api_call H fuel c s with
      | Done s' | Raised _ s' => never_reuses_name H fuel cs' s'
      | OutOfFuel => True
      end
  end.

(** A table of hooks whose [step] hooks leave the record of step
    invocations as they found it: they start no tick of their own. *)
Definition step_history_kept (H : Hooks) : Prop :=
  ∀ e s dt, steps (calls (after (step H e s dt))) = steps (calls s).

(** ** Sample components

    A scheduler as [run.py] builds it (ten ticks per second), three
    engines of ascending priority, a second engine that shares the name
    of the first, and components scripted to fail in chosen hooks.  A
    hook that returns leaves a note in [events]. *)

Definition scheduler (strict_flag : bool) : OrchestrationEngine :=
  mkOrch 10%float (1.0 / 10)%float strict_flag [] [] false empty_world [] [].

Definition alpha : BaseEngine := mkEngine 1 "alpha" 10.
Definition beta : BaseEngine := mkEngine 2 "beta" 20.
Definition gamma : BaseEngine := mkEngine 3 "gamma" 30.
Definition alpha_twin : BaseEngine := mkEngine 4 "alpha" 10.

Definition boom : Exn := mkExn "RuntimeError" "boom" true.

Definition note (tag : string) (e : BaseEngine) (w : WorldState) : WorldState :=
  mkWorld (time w) (tick w) (entities w)
          (events w ++ [VStr (tag ++ name e)]) (meta w) (extra w).

(** The engines whose [eid] is listed raise [boom] in the given hook. *)
Definition scripted (bad_register bad_step bad_shutdown : list nat) : Contract :=
  mkContract
    (fun e w => if bool_decide (eid e ∈ bad_register) then Raise boom w
                else Return w)
    (fun e w _ => if bool_decide (eid e ∈ bad_step) then Raise boom w
                  else Return (note "step:" e w))
    (fun e w => if bool_decide (eid e ∈ bad_shutdown) then Raise boom w
                else Return (note "bye:" e w)).

(** The scheduler after a caller issued the calls [cs]. *)
Definition after_calls (C : Contract) (cs : list ApiCall)
    (s : OrchestrationEngine) : OrchestrationEngine :=
  default s (api_run (contract_hooks C) 8 cs s).

Definition three_engines (C : Contract) (strict_flag : bool) : OrchestrationEngine :=
  after_calls C [CallRegister (Engine gamma); CallRegister (Engine alpha);
                 CallRegister (Engine beta)] (scheduler strict_flag).

(** A component that calls the scheduler back: the [step] of the engine
    with [eid] 1 removes "gamma" from the registry and registers [beta];
    every other hook is that of a component that never fails. *)
Definition meddling : Hooks :=
  let quiet := contract_hooks (scripted [] [] []) in
  mkHooks
    (on_register quiet)
    (fun e s dt =>
       if decide (eid e = 1%nat) then
         match register_engine quiet 0 (Engine beta)
                 (unregister_engine "gamma" s) with
         | Done s' => Returns s'
         | Raised err s' => Raises err s'
         | OutOfFuel => Raises boom s
         end
       else step quiet e s dt)
    (on_shutdown quiet).

(** [run.py]: a scheduler at ten ticks per second in isolated mode, one
    [InputEngine], then [start]. *)
Definition run_py (sleep : float -> option Exn) (fuel : nat) (clock : list float)
  : LoopOutcome :=
  match __init__ 10%float false with
  | inl err => Failed err (scheduler false)
  | inr orchestrator =>
      match register_engine (contract_hooks input_contract) fuel
              (Engine InputEngine) orchestrator with
      | Done s => start (contract_hooks input_contract) sleep fuel clock s
      | Raised err s => Failed err s
      | OutOfFuel => Stuck
      end
  end.

(** ** Vocabulary of the further properties *)

(** A property of the world state that every hook preserves. *)
Record hooks_preserve (C : Contract) (P : WorldState → Prop) : Prop := mkPreserve {
  keep_on_register : ∀ e w, P w → P (reply_world (c_on_register C e w));
  keep_step : ∀ e w dt, P w → P (reply_world (c_step C e w dt));
  keep_on_shutdown : ∀ e w, P w → P (reply_world (c_on_shutdown C e w))
}.

Definition outcome_world (P : WorldState → Prop) (o : Outcome) : Prop :=
  match o with
  | Done s' | Raised _ s' => P (world_state s')
  | OutOfFuel => True
  end.

(** The hooks leave the scheduler's two counters alone. *)
Definition keeps_clock (C : Contract) : Prop :=
  ∀ n t, hooks_preserve C (fun w => tick w = n ∧ time w = t).

(** The number of [step_once] calls in a sequence of calls. *)
Fixpoint ticks_in (ms : list MethodCall) : nat :=
  match ms with
  | [] => O
  | DoStepOnce :: ms' => S (ticks_in ms')
  | _ :: ms' => ticks_in ms'
  end.

(** [time] after [n] ticks: [n] float additions of the tick duration. *)
Fixpoint advance (n : nat) (dt t : float) : float :=
  match n with
  | O => t
  | S n' => advance n' dt (t + dt)%float
  end.

(** The readings of the clock at which [_run_loop] performs a tick: those
    at least a tick duration after the reading of the previous tick. *)
Fixpoint due_count (dt last_time : float) (clock : list float) : nat :=
  match clock with
  | [] => O
  | now :: clock' =>
      if (dt <=? now - last_time)%float then S (due_count dt now clock')
      else due_count dt last_time clock'
  end.

(** [world_state["input"]] is the dict [InputEngine.on_register] stores,
    with [l] under "raw_events". *)
Definition input_slot (w : WorldState) (l : list PyVal) : Prop :=
  ∃ d, extra w !! "input" = Some (VDict d) ∧
       dict_get "raw_events" d = Some (VList l).

(** What [run.py] keeps true from tick to tick: isolated mode, running,
    [InputEngine] alone in the registry, and one entry in
    ["input"]["raw_events"] for every sixty ticks counted. *)
Definition run_py_invariant (s : OrchestrationEngine) : Prop :=
  strict s = false ∧ running s = true ∧ engines s = [InputEngine] ∧
  0 <= tick (world_state s) ∧
  ∃ l, input_slot (world_state s) l ∧
       Z.of_nat (length l) = tick (world_state s) / 60.

(** Components whose [on_shutdown] raises [crash] the first time any of
    them is shut down (it leaves a mark in [meta]) and returns from then
    on; the [step] of the engine with [eid] 2 raises [boom]. *)
Definition crash : Exn := mkExn "RuntimeError" "crash" true.

Definition shutdown_fails_once : Contract :=
  mkContract
    (fun _ w => Return w)
    (fun e w _ => if bool_decide (eid e = 2%nat) then Raise boom w else Return w)
    (fun _ w => if decide (meta w !! "down" = None)
                then Raise crash
                       (mkWorld (time w) (tick w) (entities w) (events w)
                                (<["down" := VBool true]> (meta w)) (extra w))
                else Return w).

(** The engines handed to [register_engine] in a sequence of calls. *)
Fixpoint registered_in (ms : list MethodCall) : list BaseEngine :=
  match ms with
  | [] => []
  | DoRegister (Engine e) :: ms' => e :: registered_in ms'
  | _ :: ms' => registered_in ms'
  end.

(** ** Failures by class *)

(** The hooks raise nothing but exceptions whose class derives from
    [Exception]. *)
Record only_exceptions (C : Contract) : Prop := mkOnly {
  only_on_register : ∀ e w err w',
    c_on_register C e w = Raise err w' → is_Exception err = true;
  only_step : ∀ e w dt err w',
    c_step C e w dt = Raise err w' → is_Exception err = true;
  only_on_shutdown : ∀ e w err w',
    c_on_shutdown C e w = Raise err w' → is_Exception err = true
}.

(** The world after the [step] hooks of [l] ran once each, in order. *)
Definition step_fold (C : Contract) (dt : float) (l : list BaseEngine)
    (w : WorldState) : WorldState :=
  foldl (fun w e => reply_world (c_step C e w dt)) w l.

(** As [scripted], with [KeyboardInterrupt] in the place of [boom]. *)
Definition interrupted (bad_register bad_step bad_shutdown : list nat) : Contract :=
  mkContract
    (fun e w => if bool_decide (eid e ∈ bad_register) then Raise KeyboardInterrupt w
                else Return w)
    (fun e w _ => if bool_decide (eid e ∈ bad_step) then Raise KeyboardInterrupt w
                  else Return (note "step:" e w))
    (fun e w => if bool_decide (eid e ∈ bad_shutdown) then Raise KeyboardInterrupt w
                else Return (note "bye:" e w)).

(** ** The world state as an object

    [self.world_state] is bound once, in [__init__], to a dict; [_tick]
    updates that dict in place, every hook is called with the attribute
    as its argument, and no statement binds the attribute again.  To tell
    that dict from a copy of it, the state of a program that uses the
    scheduler holds, beside the scheduler, the dicts the program built
    itself, and a dict is named by a reference. *)

Module Aliasing.

Inductive Ref : Type :=
| SchedulerWorld             (* the dict bound to self.world_state *)
| CallerDict (n : nat).      (* the n-th dict the caller built *)

Record Program : Type := mkProgram {
  scheduler : OrchestrationEngine;
  caller_dicts : list WorldState
}.



(** [return self.world_state]: the reference held by the attribute. *)
Definition get_world_state (p : Program) : Ref := SchedulerWorld.



End Aliasing.

(** * Properties of the sort *)

Section Sort.

Implicit Types (e x : BaseEngine) (l : list BaseEngine).

Lemma insert_by_priority_perm e l : insert_by_priority e l ≡ₚ e :: l.
Proof.
  induction l as [|x l IH]; simpl; [done|].
  destruct (priority e <=? priority x); [done|].
  rewrite IH. apply Permutation_swap.
Qed.

Lemma sort_by_priority_perm l : sort_by_priority l ≡ₚ l.
Proof.
  induction l as [|x l IH]; simpl; [done|].
  rewrite insert_by_priority_perm. by rewrite IH.
Qed.

Lemma insert_by_priority_sorted e l :
  StronglySorted by_priority l → StronglySorted by_priority (insert_by_priority e l).
Proof.
  induction 1 as [|x l Hl IH Hx]; simpl.
  - repeat constructor.
  - destruct (Z.leb_spec (priority e) (priority x)).
    + constructor; [by constructor|].
      constructor; [done|].
      eapply Forall_impl; [exact Hx|]. unfold by_priority. intros; lia.
    + constructor; [done|].
      rewrite insert_by_priority_perm. constructor; [|done].
      unfold by_priority. lia.
Qed.

Lemma sort_by_priority_sorted l : StronglySorted by_priority (sort_by_priority l).
Proof.
  induction l; simpl; [constructor|]. by apply insert_by_priority_sorted.
Qed.

(** Stability: entries of one priority keep their relative order. *)
Lemma insert_by_priority_stable p e l :
  filter (has_priority p) (insert_by_priority e l) = filter (has_priority p) (e :: l).
Proof.
  induction l as [|x l IH]; simpl; [done|].
  destruct (Z.leb_spec (priority e) (priority x)); [done|].
  rewrite filter_cons, IH, !filter_cons. unfold has_priority.
  repeat case_decide; try done. lia.
Qed.

Lemma sort_by_priority_stable p l :
  filter (has_priority p) (sort_by_priority l) = filter (has_priority p) l.
Proof.
  induction l as [|x l IH]; simpl; [done|].
  by rewrite insert_by_priority_stable, !filter_cons, IH.
Qed.

(** A list already in order is left as it is. *)
Lemma sort_by_priority_id l :
  StronglySorted by_priority l → sort_by_priority l = l.
Proof.
  induction 1 as [|x l Hl IH Hx]; simpl; [done|].
  rewrite IH. destruct Hx as [|y l Hy _]; simpl; [done|].
  unfold by_priority in Hy. by destruct (Z.leb_spec (priority x) (priority y)); [|lia].
Qed.

End Sort.

(** * What the scheduler leaves alone *)

Section Frame.

Implicit Types (s : OrchestrationEngine) (l : list BaseEngine).

Lemma sublist_StronglySorted {A} (R : relation A) (l' l : list A) :
  l' `sublist_of` l → StronglySorted R l → StronglySorted R l'.
Proof.
  induction 1 as [|x l1 l2 Hsub IH|x l1 l2 Hsub IH]; intros Hs; [done|..].
  - apply StronglySorted_cons in Hs as [Hx Hs].
    constructor; [by apply IH|].
    apply Forall_forall. intros y Hy.
    eapply Forall_forall; [exact Hx|]. by eapply elem_of_sublist.
  - apply StronglySorted_cons in Hs as [_ Hs]. by apply IH.
Qed.

Lemma sublist_filter_mono {A} (P : A → Prop) `{!∀ x, Decision (P x)} (l' l : list A) :
  l' `sublist_of` l → filter P l' `sublist_of` filter P l.
Proof.
  induction 1 as [|x l1 l2 _ IH|x l1 l2 _ IH]; [done|..].
  - rewrite !filter_cons. case_decide; [apply sublist_skip|]; exact IH.
  - rewrite filter_cons. case_decide; [apply sublist_cons|]; exact IH.
Qed.

Lemma evolves_refl s : evolves s s.
Proof. by constructor. Qed.

Lemma evolves_trans s1 s2 s3 : evolves s1 s2 → evolves s2 s3 → evolves s1 s3.
Proof.
  intros [] []. constructor; try congruence.
  - by etrans.
  - intros Hs. rewrite <- ev_kept0 by done. apply ev_kept1. congruence.
Qed.

#[global] Instance evolves_preorder : PreOrder evolves.
Proof. split; [exact evolves_refl|exact evolves_trans]. Qed.

Lemma evolves_print line s : evolves s (print line s).
Proof. by constructor. Qed.

Lemma evolves_set_running b s : evolves s (set_running b s).
Proof. by constructor. Qed.

Lemma evolves_set_world_state w s : evolves s (set_world_state w s).
Proof. by constructor. Qed.

Lemma evolves_record_step e s : evolves s (record_call (Step e) s).
Proof.
  constructor; try done. simpl. unfold registrations.
  by rewrite omap_app, app_nil_r.
Qed.

Lemma evolves_record_shutdown e s : evolves s (record_call (OnShutdown e) s).
Proof.
  constructor; try done. simpl. unfold registrations.
  by rewrite omap_app, app_nil_r.
Qed.

Lemma evolves_unregister n s :
  strict s = false → evolves s (unregister_engine n s).
Proof.
  intros Hs. constructor; try done.
  - simpl. apply sublist_filter.
  - congruence.
Qed.

Lemma evolves_on_world r s : evolves s (after (on_world r s)).
Proof. destruct r; apply evolves_set_world_state. Qed.

End Frame.

(** * The fault policy *)

Section Policy.

Implicit Types (s : OrchestrationEngine) (e : BaseEngine) (err : Exn).

(** The messages [_handle_engine_error] prints before it branches. *)
Lemma handle_isolated stop e err s :
  strict s = false →
  _handle_engine_error stop e err s =
    Done (unregister_engine (name e)
      (print ("[Orchestrator] Isolating engine '" ++ name e ++ "'")
        (print ("Traceback: " ++ exn_class err ++ ": " ++ exn_msg err)
          (print ("[Orchestrator] ERROR in engine '" ++ name e ++ "'") s)))).
Proof. intros Hs. unfold _handle_engine_error. simpl. by rewrite Hs. Qed.

Lemma handle_strict stop e err s :
  strict s = true →
  _handle_engine_error stop e err s =
    match stop (print "[Orchestrator] Strict mode enabled. Shutting down."
                 (print ("Traceback: " ++ exn_class err ++ ": " ++ exn_msg err)
                   (print ("[Orchestrator] ERROR in engine '" ++ name e ++ "'") s)))
    with
    | Done s' => Raised err s'
    | other => other
    end.
Proof. intros Hs. unfold _handle_engine_error. simpl. by rewrite Hs. Qed.

(** Strict mode never resumes after a failure. *)
Lemma handle_strict_not_done stop e err s s' :
  strict s = true → _handle_engine_error stop e err s ≠ Done s'.
Proof.
  intros Hs. rewrite handle_strict by done. by destruct (stop _).
Qed.

(** Resuming after a failure means the engine was isolated. *)
Lemma handle_done_inv stop e err s s' :
  _handle_engine_error stop e err s = Done s' →
  strict s = false ∧ calls s' = calls s ∧
  engines s' = filter (fun x => name x ≠ name e) (engines s).
Proof.
  destruct (strict s) eqn:Hs.
  - intros Hd. by apply handle_strict_not_done in Hd.
  - rewrite handle_isolated by done. by intros [= <-].
Qed.

End Policy.

(** * Components that keep to the contract *)

Section Conforming.

Variable C : Contract.

Implicit Types (s : OrchestrationEngine) (e : BaseEngine) (l : list BaseEngine).

Lemma outcome_evolves_trans s1 s2 o :
  evolves s1 s2 → outcome_evolves s2 o → outcome_evolves s1 o.
Proof. destruct o; simpl; eauto using evolves_trans. Qed.

Lemma stop_enter_evolves s : evolves s (stop_enter s).
Proof. by constructor. Qed.

Lemma stop_loop_evolves fuel : ∀ k i s,
  outcome_evolves s (stop_loop (contract_hooks C) fuel k i s).
Proof.
  induction fuel as [|fuel IH]; intros k i s; simpl; [done|].
  destruct (list_at s k !! i) as [e|]; [|apply evolves_refl].
  set (s1 := record_call (OnShutdown e) s).
  assert (evolves s s1) as Hs1 by apply evolves_record_shutdown.
  pose proof (evolves_on_world (c_on_shutdown C e (world_state s)) s1) as Hw.
  destruct (c_on_shutdown C e (world_state s)) as [w|err w]; simpl in *.
  - eapply outcome_evolves_trans; [|apply IH]. by etrans.
  - set (s2 := set_world_state w s1) in *.
    assert (evolves s s2) as Hs2 by (by etrans).
    destruct (is_Exception err); [|done].
    destruct (strict s2) eqn:Hstrict.
    + rewrite handle_strict by done. unfold stop_with.
      match goal with |- context [stop_loop _ fuel ?k' ?i' ?s'] =>
        pose proof (IH k' i' s') as Hin;
        assert (evolves s s') as Hs' by
          (etrans; [exact Hs2|]; by constructor);
        destruct (stop_loop _ fuel k' i' s') as [s3|err3 s3|]
      end; simpl in *; [| |done]; by etrans.
    + rewrite handle_isolated by done.
      eapply outcome_evolves_trans; [|apply IH].
      etrans; [exact Hs2|].
      etrans; [|apply evolves_unregister; done].
      by constructor.
Qed.

Lemma stop_evolves fuel s : outcome_evolves s (stop (contract_hooks C) fuel s).
Proof.
  unfold stop, stop_with.
  eapply outcome_evolves_trans; [apply stop_enter_evolves|apply stop_loop_evolves].
Qed.

Lemma handle_evolves fuel e err s :
  outcome_evolves s (_handle_engine_error (stop (contract_hooks C) fuel) e err s).
Proof.
  destruct (strict s) eqn:Hstrict.
  - rewrite handle_strict by done.
    match goal with |- context [stop _ fuel ?s'] =>
      pose proof (stop_evolves fuel s') as Hin;
      assert (evolves s s') as Hs' by (by constructor);
      destruct (stop _ fuel s') as [s3|err3 s3|]
    end; simpl in *; [| |done]; by etrans.
  - rewrite handle_isolated by done. simpl.
    etrans; [|apply evolves_unregister; done]. by constructor.
Qed.

Lemma tick_loop_evolves fuel l : ∀ s,
  outcome_evolves s (tick_loop (contract_hooks C) fuel l s).
Proof.
  induction l as [|e l IH]; intros s; simpl; [apply evolves_refl|].
  set (s1 := record_call (Step e) s).
  assert (evolves s s1) as Hs1 by apply evolves_record_step.
  pose proof (evolves_on_world (c_step C e (world_state s) (tick_duration s)) s1) as Hw.
  destruct (c_step C e (world_state s) (tick_duration s)) as [w|err w]; simpl in *.
  - eapply outcome_evolves_trans; [|apply IH]. by etrans.
  - set (s2 := set_world_state w s1) in *.
    destruct (is_Exception err); [|simpl; by etrans].
    pose proof (handle_evolves fuel e err s2) as Hh.
    destruct (_handle_engine_error _ e err s2) as [s3|err3 s3|]; simpl in *; [| |done].
    + eapply outcome_evolves_trans; [|apply IH]. etrans; [|exact Hh]. by etrans.
    + etrans; [|exact Hh]. by etrans.
Qed.

Lemma tick_enter_evolves s : evolves s (tick_enter s).
Proof. by constructor. Qed.

Lemma tick_evolves fuel s : outcome_evolves s (_tick (contract_hooks C) fuel s).
Proof.
  unfold _tick.
  eapply outcome_evolves_trans; [apply tick_enter_evolves|apply tick_loop_evolves].
Qed.

End Conforming.

(** * Shutdown when no hook fails *)

Section QuietStop.

Variable C : Contract.

Implicit Types (s : OrchestrationEngine) (e : BaseEngine) (l : list BaseEngine).

Lemma list_at_current s : list_at s (engines_id s) = engines s.
Proof. unfold list_at. by rewrite decide_True. Qed.

Lemma list_at_same s s' k :
  engines s' = engines s → retired s' = retired s → list_at s' k = list_at s k.
Proof. unfold list_at, engines_id. by intros -> ->. Qed.

Lemma shutdown_state_nil s : shutdown_state C [] s = s.
Proof. destruct s. unfold shutdown_state. simpl. by rewrite app_nil_r. Qed.

Lemma stop_loop_quiet fuel k l : ∀ i s,
  list_at s k = l →
  quiet_shutdown C l →
  (length l - i < fuel)%nat →
  stop_loop (contract_hooks C) fuel k i s = Done (shutdown_state C (drop i l) s).
Proof.
  induction fuel as [|fuel IH]; intros i s Hl Hq Hf; [lia|].
  simpl. rewrite Hl. destruct (l !! i) as [e|] eqn:Hi.
  - destruct (Hq e (world_state s)) as [w' Hw'].
    { eapply list_elem_of_lookup_2, Hi. }
    rewrite Hw'. simpl.
    apply lookup_lt_Some in Hi as Hlt.
    rewrite IH; [|by rewrite <- Hl|done|lia].
    rewrite (drop_S l e i Hi). unfold shutdown_state. simpl.
    rewrite Hw'. simpl. by rewrite <- app_assoc.
  - apply lookup_ge_None_1 in Hi.
    by rewrite drop_ge, shutdown_state_nil.
Qed.

Lemma stop_quiet fuel s :
  quiet_shutdown C (engines s) →
  (length (engines s) < fuel)%nat →
  stop (contract_hooks C) fuel s
    = Done (shutdown_state C (engines s) (stop_enter s)).
Proof.
  intros Hq Hf. unfold stop, stop_with.
  rewrite (stop_loop_quiet fuel _ (engines s));
    [done|apply (list_at_current (stop_enter s))|done|].
  simpl. lia.
Qed.

End QuietStop.

(** * The walk of a tick *)

Section Walk.

Variable H : Hooks.

Implicit Types (s : OrchestrationEngine) (e : BaseEngine) (l : list BaseEngine).

Lemma tick_loop_app fuel l1 l2 : ∀ s,
  tick_loop H fuel (l1 ++ l2) s =
    match tick_loop H fuel l1 s with
    | Done s1 => tick_loop H fuel l2 s1
    | other => other
    end.
Proof.
  induction l1 as [|e l1 IH]; intros s; simpl; [done|].
  destruct (step H e _ _) as [s1|err s1]; [apply IH|].
  destruct (is_Exception err); [|done].
  destruct (_handle_engine_error _ e err s1); [apply IH|done..].
Qed.

Lemma steps_snoc_step cs e : steps (cs ++ [Step e]) = steps cs ++ [e].
Proof. unfold steps. by rewrite omap_app. Qed.

(** A tick that returns stepped the engines of its snapshot, each once,
    in order, whatever happened to the registry meanwhile. *)
Lemma tick_loop_done_steps fuel l : ∀ s s',
  step_history_kept H →
  tick_loop H fuel l s = Done s' →
  steps (calls s') = steps (calls s) ++ l.
Proof.
  induction l as [|e l IH]; intros s s' Hk; simpl.
  - intros [= <-]. by rewrite app_nil_r.
  - pose proof (Hk e (record_call (Step e) s) (tick_duration s)) as Hstep.
    simpl in Hstep. rewrite steps_snoc_step in Hstep.
    destruct (step H e _ _) as [s1|err s1]; simpl in Hstep.
    + intros Hd. rewrite (IH _ _ Hk Hd), Hstep. by rewrite <- app_assoc.
    + destruct (is_Exception err); [|done].
      destruct (_handle_engine_error _ e err s1) as [s2| |] eqn:Hh; [|done..].
      apply handle_done_inv in Hh as (_ & Hcalls & _).
      intros Hd. rewrite (IH _ _ Hk Hd), Hcalls, Hstep. by rewrite <- app_assoc.
Qed.

End Walk.

Section ConformingWalk.

Variable C : Contract.

Implicit Types (s : OrchestrationEngine) (e : BaseEngine) (l : list BaseEngine).

Lemma contract_step_history_kept : step_history_kept (contract_hooks C).
Proof. intros e s dt. simpl. by destruct (c_step C e _ _). Qed.

Lemma tick_loop_done_calls fuel l : ∀ s s',
  tick_loop (contract_hooks C) fuel l s = Done s' →
  calls s' = calls s ++ (Step <$> l).
Proof.
  induction l as [|e l IH]; intros s s'; simpl.
  - intros [= <-]. by rewrite app_nil_r.
  - destruct (c_step C e _ _) as [w|err w]; simpl.
    + intros Hd. rewrite (IH _ _ Hd). simpl. by rewrite <- app_assoc.
    + destruct (is_Exception err); [|done].
      destruct (_handle_engine_error _ e err _) as [s2| |] eqn:Hh; [|done..].
      apply handle_done_inv in Hh as (_ & Hcalls & _).
      intros Hd. rewrite (IH _ _ Hd), Hcalls. simpl. by rewrite <- app_assoc.
Qed.

(** In isolated mode the walk always comes back. *)
Lemma tick_loop_isolated fuel l : ∀ s,
  only_exceptions C →
  strict s = false → ∃ s', tick_loop (contract_hooks C) fuel l s = Done s'.
Proof.
  induction l as [|e l IH]; intros s HC Hs; simpl; [by eexists|].
  destruct (c_step C e _ _) as [w|err w] eqn:Hstep; simpl.
  - by apply IH.
  - rewrite (only_step C HC _ _ _ _ _ Hstep).
    rewrite handle_isolated by done. by apply IH.
Qed.

(** In strict mode a walk that comes back met no failure and left the
    registry as it was. *)
Lemma tick_loop_strict_done fuel l s s' :
  strict s = true →
  tick_loop (contract_hooks C) fuel l s = Done s' →
  strict s' = true ∧ engines s' = engines s ∧ tick_duration s' = tick_duration s.
Proof.
  intros Hs Hd. pose proof (tick_loop_evolves C fuel l s) as Hev.
  rewrite Hd in Hev. destruct Hev. split_and!; [congruence|auto|done].
Qed.

End ConformingWalk.

(** * Registration and removal *)

Section Registration.

Variable C : Contract.

Implicit Types (s : OrchestrationEngine) (e : BaseEngine) (l : list BaseEngine).

Lemma register_engine_evolves fuel e s :
  outcome_evolves (enrolled e s)
    (register_engine (contract_hooks C) fuel (Engine e) s).
Proof.
  unfold register_engine. simpl.
  destruct (c_on_register C e (world_state s)) as [w|err w]; simpl.
  - by constructor.
  - destruct (is_Exception err); [|simpl; by constructor].
    eapply outcome_evolves_trans; [|apply handle_evolves]. by constructor.
Qed.

Lemma registrations_enrolled e s :
  registrations (calls (enrolled e s)) = registrations (calls s) ++ [e].
Proof. simpl. unfold registrations. by rewrite omap_app. Qed.

Lemma in_registration_order_shrink s s' :
  in_registration_order s →
  engines s' `sublist_of` engines s →
  registrations (calls s') = registrations (calls s) →
  in_registration_order s'.
Proof.
  intros [Hsorted Hclass] Hsub Hreg. split.
  - by eapply sublist_StronglySorted.
  - intros p. rewrite Hreg. etrans; [|apply Hclass].
    by apply sublist_filter_mono.
Qed.

Lemma in_registration_order_enrolled e s :
  in_registration_order s → in_registration_order (enrolled e s).
Proof.
  intros [_ Hclass]. split; simpl.
  - apply sort_by_priority_sorted.
  - intros p. rewrite sort_by_priority_stable.
    change (calls s ++ [OnRegister e]) with (calls (enrolled e s)).
    rewrite registrations_enrolled, !filter_app.
    by apply sublist_app.
Qed.

Lemma in_registration_order_api_call fuel c s :
  in_registration_order s →
  match api_call (contract_hooks C) fuel c s with
  | Done s' | Raised _ s' => in_registration_order s'
  | OutOfFuel => True
  end.
Proof.
  intros Hs. destruct c as [[e|v]|n]; unfold api_call; [|done|].
  - pose proof (register_engine_evolves fuel e s) as Hev.
    destruct (register_engine _ fuel (Engine e) s) as [s'|err s'|]; [| |done];
      destruct Hev;
      by eapply in_registration_order_shrink;
        [apply in_registration_order_enrolled| |].
  - eapply in_registration_order_shrink; [done| |done].
    simpl. apply sublist_filter.
Qed.

Lemma in_registration_order_api_run fuel cs : ∀ s s',
  in_registration_order s →
  api_run (contract_hooks C) fuel cs s = Some s' →
  in_registration_order s'.
Proof.
  induction cs as [|c cs IH]; intros s s' Hs; simpl.
  - by intros [= <-].
  - pose proof (in_registration_order_api_call fuel c s Hs) as Hc.
    destruct (api_call _ fuel c s); [by apply IH..|done].
Qed.

(** Names. *)
Lemma names_enrolled e s :
  NoDup (list_engines s) → name e ∉ list_engines s →
  NoDup (list_engines (enrolled e s)).
Proof.
  unfold list_engines. simpl. intros Hnd Hfresh.
  rewrite sort_by_priority_perm, fmap_app. simpl.
  apply NoDup_app. split_and!; [done| |apply NoDup_singleton].
  intros x Hx ->%list_elem_of_singleton. done.
Qed.

Lemma names_shrink s s' :
  engines s' `sublist_of` engines s →
  NoDup (list_engines s) → NoDup (list_engines s').
Proof.
  intros Hsub Hnd. eapply sublist_NoDup; [exact Hnd|].
  unfold list_engines. by apply fmap_sublist.
Qed.

Lemma names_api_call fuel c s :
  NoDup (list_engines s) →
  match c with
  | CallRegister (Engine e) => name e ∉ list_engines s
  | _ => True
  end →
  match api_call (contract_hooks C) fuel c s with
  | Done s' | Raised _ s' => NoDup (list_engines s')
  | OutOfFuel => True
  end.
Proof.
  intros Hnd Hfresh. destruct c as [[e|v]|n]; unfold api_call; [|done|].
  - pose proof (register_engine_evolves fuel e s) as Hev.
    destruct (register_engine _ fuel (Engine e) s) as [s'|err s'|]; [| |done];
      destruct Hev;
      (eapply names_shrink; [eassumption|]); by apply names_enrolled.
  - eapply names_shrink; [|done]. simpl. apply sublist_filter.
Qed.

End Registration.

(** * A failure at its place in the walk *)

Section OneTick.

Variable C : Contract.

Implicit Types (s : OrchestrationEngine) (e : BaseEngine) (l : list BaseEngine).

Lemma tick_loop_failure l1 e l2 fuel s s1 err w :
  tick_loop (contract_hooks C) fuel l1 s = Done s1 →
  c_step C e (world_state s1) (tick_duration s1) = Raise err w →
  tick_loop (contract_hooks C) fuel (l1 ++ e :: l2) s =
    if is_Exception err then
      match _handle_engine_error (stop (contract_hooks C) fuel) e err
              (set_world_state w (record_call (Step e) s1)) with
      | Done s2 => tick_loop (contract_hooks C) fuel l2 s2
      | other => other
      end
    else Raised err (set_world_state w (record_call (Step e) s1)).
Proof.
  intros Hl1 Hstep. rewrite tick_loop_app, Hl1. simpl. by rewrite Hstep.
Qed.

End OneTick.

Lemma quiet_shutdown_scripted r st l : quiet_shutdown (scripted r st []) l.
Proof. intros e w _. simpl. eauto. Qed.

Lemma only_exceptions_scripted r st sh : only_exceptions (scripted r st sh).
Proof.
  split; simpl; intros e w; intros; case_bool_decide; by simplify_eq.
Qed.

(** * The specification on shutdown and on the registry *)

(** ** Shutdown *)

(** C5.  A call of [stop] sets [running] to false and invokes
    [on_shutdown] once for every entry of the registry, in registry order;
    it keeps no record of having run, so a second call does the same
    again: the flag and the registry are as the first call left them, and
    every [on_shutdown] hook has then run twice.  (No [on_shutdown] hook
    raising.) *)
Theorem stop_twice (C : Contract) (fuel : nat) (s : OrchestrationEngine) :
  quiet_shutdown C (engines s) →
  (length (engines s) < fuel)%nat →
  ∃ s1 s2,
    stop (contract_hooks C) fuel s = Done s1 ∧
    stop (contract_hooks C) fuel s1 = Done s2 ∧
    running s1 = false ∧ running s2 = false ∧
    engines s1 = engines s ∧ engines s2 = engines s ∧
    calls s1 = calls s ++ (OnShutdown <$> engines s) ∧
    calls s2 = calls s1 ++ (OnShutdown <$> engines s) ∧
    world_state s1 = shutdown_fold C (engines s) (world_state s) ∧
    world_state s2 = shutdown_fold C (engines s) (world_state s1).
Proof.
  intros Hq Hf. eexists _, _.
  split; [by apply stop_quiet|].
  split; [by apply stop_quiet|].
  by split_and!.
Qed.

Lemma stop_twice_witness :
  ∃ s1 s2,
    stop (contract_hooks (scripted [] [] [])) 5
         (three_engines (scripted [] [] []) false) = Done s1 ∧
    stop (contract_hooks (scripted [] [] [])) 5 s1 = Done s2 ∧
    shutdowns (calls s1) = [alpha; beta; gamma] ∧
    shutdowns (calls s2) = [alpha; beta; gamma; alpha; beta; gamma].
Proof.
  destruct (stop_twice (scripted [] [] []) 5
              (three_engines (scripted [] [] []) false))
    as (s1 & s2 & H1 & H2 & _ & _ & _ & _ & Hc1 & Hc2 & _).
  - apply quiet_shutdown_scripted.
  - vm_compute. lia.
  - exists s1, s2. split_and!; [exact H1|exact H2| |].
    + rewrite Hc1. vm_compute. reflexivity.
    + rewrite Hc2, Hc1. vm_compute. reflexivity.
Defined.

(** C5, as the specification words it, fails: a second [stop] changes
    the state the first one left, and the [on_shutdown] hook of the one
    registered component has run twice. *)
Lemma stop_twice_counterexample :
  ∃ s1 s2,
    stop (contract_hooks (scripted [] [] [])) 5
         (after_calls (scripted [] [] []) [CallRegister (Engine alpha)]
            (scheduler false)) = Done s1 ∧
    stop (contract_hooks (scripted [] [] [])) 5 s1 = Done s2 ∧
    s2 ≠ s1 ∧
    events (world_state s1) = [VStr "bye:alpha"] ∧
    events (world_state s2) = [VStr "bye:alpha"; VStr "bye:alpha"] ∧
    shutdowns (calls s2) = [alpha; alpha].
Proof.
  eexists _, _.
  split; [vm_compute; reflexivity|].
  split; [vm_compute; reflexivity|].
  split.
  - intros Heq.
    apply (f_equal (fun s => length (events (world_state s)))) in Heq.
    vm_compute in Heq. discriminate.
  - split_and!; vm_compute; reflexivity.
Qed.

(** A failure inside [stop], strict mode. *)

Section Reentrancy.

Variable C : Contract.

(** The first entry of the registry raises in [on_shutdown] whenever it is
    asked to shut down: no recursion budget is enough for [stop]. *)
Lemma stop_loop_strict_diverges fuel : ∀ s e l,
  strict s = true →
  engines s = e :: l →
  (∀ w, ∃ err w', c_on_shutdown C e w = Raise err w' ∧ is_Exception err = true) →
  stop_loop (contract_hooks C) fuel (engines_id s) 0 s = OutOfFuel.
Proof.
  induction fuel as [|fuel IH]; intros s e l Hs He Hbad; [done|].
  simpl. rewrite list_at_current, He. simpl.
  destruct (Hbad (world_state s)) as (err & w' & -> & Hexn). simpl.
  rewrite Hexn, handle_strict by done. unfold stop_with.
  match goal with |- context [stop_loop _ fuel (engines_id ?s') 0%nat ?s'] =>
    rewrite (IH s' e l); [done|done|done|done]
  end.
Qed.

End Reentrancy.

(** C3.  Strict mode, one registered component whose [on_shutdown]
    raises: [stop] hands the failure to [_handle_engine_error], which calls
    [stop], which invokes the same hook again.  Whatever the recursion
    budget, [stop] does not come back. *)
Theorem stop_strict_failing_shutdown_diverges (fuel : nat) :
  stop (contract_hooks (scripted [] [] [1%nat])) fuel
       (after_calls (scripted [] [] [1%nat]) [CallRegister (Engine alpha)]
          (scheduler true))
  = OutOfFuel.
Proof.
  unfold stop, stop_with.
  apply (stop_loop_strict_diverges _ fuel _ alpha []).
  - vm_compute. reflexivity.
  - vm_compute. reflexivity.
  - intros w. by exists boom, w.
Qed.

(** ** The registry during a tick *)

Lemma meddling_step_history_kept : step_history_kept meddling.
Proof.
  intros e s dt. unfold meddling. simpl.
  destruct (decide (eid e = 1%nat)); simpl.
  - unfold steps. by rewrite omap_app, app_nil_r.
  - apply (contract_step_history_kept (scripted [] [] []) e s dt).
Qed.

(** C2.  A tick walks the copy of the registry it takes after the three
    updates of the world state.  Whenever the tick returns, the components
    it stepped are those registered when it began, each once and in
    registry order: a component registered by a hook during the tick is
    first stepped in the next tick, and a component removed during the
    tick is still stepped in this one.  ([step] hooks may call the
    scheduler back, as long as they run no tick of their own.) *)
Theorem tick_walks_snapshot (H : Hooks) (fuel : nat) (s s' : OrchestrationEngine) :
  step_history_kept H →
  step_once H fuel s = Done s' →
  steps (calls s') = steps (calls s) ++ engines s.
Proof.
  intros Hk Hd. by apply (tick_loop_done_steps H fuel _ _ _ Hk) in Hd.
Qed.

Lemma tick_walks_snapshot_witness :
  ∃ s', step_once meddling 5
          (after_calls (scripted [] [] [])
             [CallRegister (Engine alpha); CallRegister (Engine gamma)]
             (scheduler false)) = Done s' ∧
        steps (calls s') = [alpha; gamma].
Proof.
  eexists. split; [vm_compute; reflexivity|].
  rewrite (tick_walks_snapshot meddling 5
             (after_calls (scripted [] [] [])
                [CallRegister (Engine alpha); CallRegister (Engine gamma)]
                (scheduler false)) _ meddling_step_history_kept);
    vm_compute; reflexivity.
Defined.

(** C2, as the specification words it, fails: [alpha] (priority 10), in
    its [step], removes "gamma" and registers [beta] (priority 20).  After
    the tick [beta] is registered and was not stepped; [gamma] is not
    registered and was stepped. *)
Lemma tick_walks_snapshot_counterexample :
  ∃ s', step_once meddling 5
          (after_calls (scripted [] [] [])
             [CallRegister (Engine alpha); CallRegister (Engine gamma)]
             (scheduler false)) = Done s' ∧
        engines s' = [alpha; beta] ∧
        steps (calls s') = [alpha; gamma] ∧
        events (world_state s') = [VStr "step:gamma"].
Proof. eexists. split_and!; vm_compute; reflexivity. Qed.

(** ** The registry across calls *)

(** C9.  From a constructed scheduler, after any sequence of
    [register_engine] and [unregister_engine] calls (failures of
    [on_register] included, in either mode), [list_engines] gives the
    names of a registry whose priorities ascend and in which the entries
    of any one priority stand in the order of their registration. *)
Theorem registry_order (C : Contract) (fuel : nat) (rate : float) (flag : bool)
    (cs : list ApiCall) (s0 s' : OrchestrationEngine) :
  __init__ rate flag = inr s0 →
  api_run (contract_hooks C) fuel cs s0 = Some s' →
  list_engines s' = name <$> engines s' ∧
  StronglySorted by_priority (engines s') ∧
  ∀ p, filter (has_priority p) (engines s')
         `sublist_of` filter (has_priority p) (registrations (calls s')).
Proof.
  intros Hinit Hrun. split; [done|].
  eapply (in_registration_order_api_run C fuel cs s0 s'); [|done].
  unfold __init__ in Hinit. destruct (rate =? 0.0)%float; [done|].
  injection Hinit as <-. split; simpl; [constructor|done].
Qed.

Lemma registry_order_witness :
  ∃ s', api_run (contract_hooks (scripted [] [] [])) 5
          [CallRegister (Engine gamma); CallRegister (Engine alpha);
           CallRegister (Engine beta); CallRegister (Engine alpha_twin);
           CallUnregister "beta"]
          (scheduler false) = Some s' ∧
        engines s' = [alpha; alpha_twin; gamma] ∧
        StronglySorted by_priority (engines s') ∧
        filter (has_priority 10) (engines s')
          `sublist_of` filter (has_priority 10) (registrations (calls s')).
Proof.
  eexists. split; [vm_compute; reflexivity|].
  split; [vm_compute; reflexivity|].
  edestruct (registry_order (scripted [] [] []) 5 10%float false
               [CallRegister (Engine gamma); CallRegister (Engine alpha);
                CallRegister (Engine beta); CallRegister (Engine alpha_twin);
                CallUnregister "beta"]
               (scheduler false)) as (_ & Hsorted & Hclass).
  - vm_compute. reflexivity.
  - vm_compute. reflexivity.
  - split; [exact Hsorted|exact (Hclass 10)].
Defined.

(** C4.  [register_engine] does not look at the names already in the
    registry.  As long as no call registers an engine under a name the
    registry holds at that time, the names in the registry stay pairwise
    distinct through any sequence of [register_engine] and
    [unregister_engine] calls. *)
Theorem names_stay_unique (C : Contract) (fuel : nat) (cs : list ApiCall) :
  ∀ s s',
  NoDup (list_engines s) →
  never_reuses_name (contract_hooks C) fuel cs s →
  api_run (contract_hooks C) fuel cs s = Some s' →
  NoDup (list_engines s').
Proof.
  induction cs as [|c cs IH]; intros s s' Hnd Hfresh; simpl.
  - by intros [= <-].
  - simpl in Hfresh. destruct Hfresh as [Hc Hrest].
    pose proof (names_api_call C fuel c s Hnd Hc) as Hcall.
    destruct (api_call _ fuel c s); [by apply IH..|done].
Qed.

Lemma names_stay_unique_witness :
  ∃ s', api_run (contract_hooks (scripted [] [] [])) 5
          [CallRegister (Engine alpha); CallRegister (Engine beta);
           CallUnregister "alpha"; CallRegister (Engine alpha_twin)]
          (scheduler false) = Some s' ∧
        list_engines s' = ["alpha"; "beta"] ∧
        NoDup (list_engines s').
Proof.
  eexists. split; [vm_compute; reflexivity|].
  split; [vm_compute; reflexivity|].
  apply (names_stay_unique (scripted [] [] []) 5
           [CallRegister (Engine alpha); CallRegister (Engine beta);
            CallUnregister "alpha"; CallRegister (Engine alpha_twin)]
           (scheduler false)).
  - vm_compute. constructor.
  - simpl. split_and!; try exact I; apply (bool_decide_unpack _); vm_compute; exact I.
  - vm_compute. reflexivity.
Defined.

(** C4, as the specification words it, fails: two engines registered
    under one name are both in the registry. *)
Lemma names_stay_unique_counterexample :
  ∃ s', api_run (contract_hooks (scripted [] [] [])) 5
          [CallRegister (Engine alpha); CallRegister (Engine alpha_twin)]
          (scheduler false) = Some s' ∧
        engines s' = [alpha; alpha_twin] ∧
        list_engines s' = ["alpha"; "alpha"] ∧
        ¬ NoDup (list_engines s').
Proof.
  eexists. split; [vm_compute; reflexivity|].
  split; [vm_compute; reflexivity|].
  split; [vm_compute; reflexivity|].
  intros Hnd. vm_compute in Hnd.
  apply NoDup_cons in Hnd as [Hin _]. apply Hin. left.
Qed.

(** * Further properties of the code *)

(** ** Properties of the world state that the hooks preserve *)

Section WorldInvariant.

Variable C : Contract.
Variable P : WorldState → Prop.
Hypothesis HP : hooks_preserve C P.

Implicit Types (s : OrchestrationEngine) (e : BaseEngine) (l : list BaseEngine).

Lemma stop_loop_world fuel : ∀ k i s,
  P (world_state s) →
  outcome_world P (stop_loop (contract_hooks C) fuel k i s).
Proof.
  induction fuel as [|fuel IH]; intros k i s Hw; simpl; [done|].
  destruct (list_at s k !! i) as [e|]; [|done].
  pose proof (keep_on_shutdown C P HP e (world_state s) Hw) as He.
  destruct (c_on_shutdown C e (world_state s)) as [w|err w]; simpl in *.
  - by apply IH.
  - destruct (is_Exception err); [|done].
    unfold _handle_engine_error. simpl.
    destruct (strict s).
    + unfold stop_with.
      match goal with |- context [stop_loop _ fuel ?k' ?i' ?s'] =>
        pose proof (IH k' i' s' He) as Hin;
        destruct (stop_loop _ fuel k' i' s')
      end; done.
    + by apply IH.
Qed.

Lemma stop_world fuel s :
  P (world_state s) → outcome_world P (stop (contract_hooks C) fuel s).
Proof. intros Hw. by apply stop_loop_world. Qed.

Lemma handle_world fuel e err s :
  P (world_state s) →
  outcome_world P (_handle_engine_error (stop (contract_hooks C) fuel) e err s).
Proof.
  intros Hw. unfold _handle_engine_error. simpl. destruct (strict s); [|done].
  match goal with |- context [stop _ fuel ?s'] =>
    pose proof (stop_world fuel s' Hw) as Hin; destruct (stop _ fuel s')
  end; done.
Qed.

Lemma tick_loop_world fuel l : ∀ s,
  P (world_state s) →
  outcome_world P (tick_loop (contract_hooks C) fuel l s).
Proof.
  induction l as [|e l IH]; intros s Hw; simpl; [done|].
  pose proof (keep_step C P HP e (world_state s) (tick_duration s) Hw) as He.
  destruct (c_step C e (world_state s) (tick_duration s)) as [w|err w]; simpl in *.
  - by apply IH.
  - destruct (is_Exception err); [|done].
    match goal with |- context [_handle_engine_error ?st e err ?s'] =>
      pose proof (handle_world fuel e err s' He) as Hh;
      destruct (_handle_engine_error st e err s')
    end; simpl in *; [by apply IH|done..].
Qed.

Lemma register_engine_world fuel o s :
  P (world_state s) →
  outcome_world P (register_engine (contract_hooks C) fuel o s).
Proof.
  intros Hw. destruct o as [e|v]; [|done]. unfold register_engine. simpl.
  pose proof (keep_on_register C P HP e (world_state s) Hw) as He.
  destruct (c_on_register C e (world_state s)) as [w|err w]; simpl in *; [done|].
  destruct (is_Exception err); [|done].
  by apply handle_world.
Qed.

End WorldInvariant.

(** ** The registry: [register_engine], [unregister_engine], [list_engines] *)

Section Registry.

Implicit Types (s : OrchestrationEngine) (e x : BaseEngine) (l : list BaseEngine)
  (n : string).

Lemma names_filter n l :
  name <$> filter (fun e => name e ≠ n) l
    = filter (fun y : string => y ≠ n) (name <$> l).
Proof.
  induction l as [|x l IH]; [done|].
  rewrite fmap_cons. destruct (decide (name x = n)) as [Hn|Hn].
  - by rewrite !filter_cons_False by naive_solver.
  - rewrite !filter_cons_True by done. by rewrite fmap_cons, IH.
Qed.

Lemma filter_id_iff {A} (P : A → Prop) `{!∀ a, Decision (P a)} (k : list A) :
  filter P k = k ↔ Forall P k.
Proof.
  induction k as [|a l IH]; [by split; [constructor|]|].
  rewrite filter_cons. case_decide as Hx; split.
  - intros [= Hl]. constructor; [done|]. by apply IH.
  - inv 1. f_equal. by apply IH.
  - intros Hl. pose proof (length_filter P l) as Hlen.
    rewrite Hl in Hlen. simpl in Hlen. lia.
  - by inv 1.
Qed.

End Registry.

(** X1.  [unregister_engine] removes every entry of the given name and
    nothing else: the names listed afterwards are those listed before
    without that name, in the same order; no hook is invoked and neither
    the world state nor the [running] flag changes. *)
Theorem unregister_engine_removes_name (n : string) (s : OrchestrationEngine) :
  list_engines (unregister_engine n s)
    = filter (fun x => x ≠ n) (list_engines s) ∧
  (n ∉ list_engines (unregister_engine n s)) ∧
  (∀ x, x ≠ n → x ∈ list_engines s → x ∈ list_engines (unregister_engine n s)) ∧
  calls (unregister_engine n s) = calls s ∧
  world_state (unregister_engine n s) = world_state s ∧
  running (unregister_engine n s) = running s.
Proof.
  assert (list_engines (unregister_engine n s)
          = filter (fun x => x ≠ n) (list_engines s)) as Hl.
  { unfold list_engines. simpl. apply names_filter. }
  split_and!; try done.
  - rewrite Hl. rewrite list_elem_of_filter. by intros [Hne _].
  - intros x Hx Hin. rewrite Hl. by apply list_elem_of_filter.
Qed.

(** X2.  Removing a name twice leaves the registry as the first removal
    left it, and removing a name leaves the registry as it was exactly
    when no entry has that name. *)
Theorem unregister_engine_idempotent (n : string) (s : OrchestrationEngine) :
  engines (unregister_engine n (unregister_engine n s))
    = engines (unregister_engine n s) ∧
  (engines (unregister_engine n s) = engines s ↔ n ∉ list_engines s).
Proof.
  split; simpl.
  - by apply list_filter_filter_l.
  - rewrite filter_id_iff, Forall_forall. unfold list_engines.
    rewrite list_elem_of_fmap. split.
    + intros Hall (x & -> & Hx). by apply (Hall x).
    + intros Hno x Hx Hname. apply Hno. by exists x.
Qed.

(** X3.  [register_engine] refuses anything that is not an engine with a
    [TypeError], before touching the scheduler: in any sequence of calls
    such a registration can be left out without changing where the
    sequence ends. *)
Theorem non_engine_registration_is_skipped (H : Hooks) (fuel : nat) (v : PyVal)
    (ms1 ms2 : list MethodCall) (s : OrchestrationEngine) :
  register_engine H fuel (NotAnEngine v) s
    = Raised (TypeError "Engine must inherit from BaseEngine") s ∧
  drive H fuel (ms1 ++ DoRegister (NotAnEngine v) :: ms2) s
    = drive H fuel (ms1 ++ ms2) s.
Proof.
  split; [done|]. revert s.
  induction ms1 as [|m ms1 IH]; intros s; simpl; [done|].
  destruct (method_call H fuel m s); [apply IH..|done].
Qed.

Section Placement.

Implicit Types (s : OrchestrationEngine) (e x : BaseEngine) (l : list BaseEngine).

Lemma insert_by_priority_head x l :
  Forall (by_priority x) l → insert_by_priority x l = x :: l.
Proof.
  destruct 1 as [|y l Hy _]; simpl; [done|].
  unfold by_priority in Hy. by destruct (Z.leb_spec (priority x) (priority y)); [|lia].
Qed.

Lemma filter_none {A} (P : A → Prop) `{!∀ a, Decision (P a)} (k : list A) :
  Forall (fun a => ¬ P a) k → filter P k = [].
Proof.
  induction 1 as [|a k Ha _ IH]; [done|]. by rewrite filter_cons_False.
Qed.

(** Where the sort puts an engine appended to a registry in order: behind
    the entries of lower or equal priority, before those of higher. *)
Lemma sort_by_priority_snoc e l :
  StronglySorted by_priority l →
  sort_by_priority (l ++ [e])
    = filter (fun x => priority x <= priority e) l
      ++ e :: filter (fun x => priority e < priority x) l.
Proof.
  induction 1 as [|x l Hl IH Hx]; [done|].
  simpl. change (foldr insert_by_priority [] (l ++ [e]))
    with (sort_by_priority (l ++ [e])). rewrite IH.
  destruct (decide (priority x <= priority e)) as [Hle|Hgt].
  - rewrite (filter_cons_True _ x) by done.
    rewrite (filter_cons_False _ x) by lia.
    apply insert_by_priority_head.
    apply Forall_app. split.
    + apply Forall_forall. intros y [_ Hy]%list_elem_of_filter.
      by eapply Forall_forall in Hx.
    + constructor; [done|].
      apply Forall_forall. intros y [_ Hy]%list_elem_of_filter.
      by eapply Forall_forall in Hx.
  - rewrite (filter_cons_False _ x) by done.
    rewrite (filter_cons_True _ x) by lia.
    assert (Forall (fun y => priority e < priority y) l) as Hall.
    { eapply Forall_impl; [exact Hx|]. unfold by_priority. intros; lia. }
    rewrite (filter_none (fun y => priority y <= priority e)).
    2:{ eapply Forall_impl; [exact Hall|]. simpl. intros; lia. }
    rewrite (proj2 (filter_id_iff _ l) Hall). simpl.
    destruct (Z.leb_spec (priority x) (priority e)); [lia|].
    by rewrite insert_by_priority_head.
Qed.

Lemma sorted_partition p l :
  StronglySorted by_priority l →
  filter (fun x => priority x <= p) l ++ filter (fun x => p < priority x) l = l.
Proof.
  induction 1 as [|x l Hl IH Hx]; [done|].
  destruct (decide (priority x <= p)) as [Hle|Hgt].
  - rewrite (filter_cons_True _ x) by done.
    rewrite (filter_cons_False _ x) by lia. simpl. by rewrite IH.
  - rewrite (filter_cons_False _ x) by done.
    rewrite (filter_cons_True _ x) by lia.
    assert (Forall (fun y => p < priority y) l) as Hall.
    { eapply Forall_impl; [exact Hx|]. unfold by_priority. intros; lia. }
    rewrite (filter_none (fun y => priority y <= p)).
    2:{ eapply Forall_impl; [exact Hall|]. simpl. intros; lia. }
    by rewrite (proj2 (filter_id_iff _ l) Hall).
Qed.

(** Appending and sorting, then removing the new name, gives back a
    registry that was in order and did not hold that name. *)
Lemma sort_snoc_then_filter e l :
  StronglySorted by_priority l →
  name e ∉ name <$> l →
  filter (fun x => name x ≠ name e) (sort_by_priority (l ++ [e])) = l.
Proof.
  intros Hs Hfresh.
  assert (Forall (fun x => name x ≠ name e) l) as Hall.
  { apply Forall_forall. intros x Hx Hn. apply Hfresh.
    apply list_elem_of_fmap. by exists x. }
  rewrite sort_by_priority_snoc by done.
  rewrite filter_app, filter_cons_False by naive_solver.
  rewrite !(proj2 (filter_id_iff (fun x => name x ≠ name e) _)).
  - by apply sorted_partition.
  - apply Forall_forall. intros x [_ Hx]%list_elem_of_filter.
    by eapply Forall_forall in Hall.
  - apply Forall_forall. intros x [_ Hx]%list_elem_of_filter.
    by eapply Forall_forall in Hall.
Qed.

(** The registry after [register_engine], whatever the outcome. *)
Lemma register_engine_registry (C : Contract) fuel e s s' :
  (register_engine (contract_hooks C) fuel (Engine e) s = Done s' ∨
   ∃ err, register_engine (contract_hooks C) fuel (Engine e) s = Raised err s') →
  engines s' = sort_by_priority (engines s ++ [e]) ∨
  engines s' = filter (fun x => name x ≠ name e)
                 (sort_by_priority (engines s ++ [e])).
Proof.
  unfold register_engine. simpl.
  destruct (c_on_register C e (world_state s)) as [w|err w]; simpl.
  - intros [[= <-]|[? [=]]]. by left.
  - destruct (is_Exception err); [|intros [[=]|[? [= _ <-]]]; by left].
    match goal with |- context [_handle_engine_error ?st e err ?s1] =>
      pose proof (handle_evolves C fuel e err s1) as Hev;
      destruct (strict s1) eqn:Hstrict
    end.
    + intros Hout. left.
      destruct Hout as [Hd|[err' Hr]]; rewrite ?Hd, ?Hr in Hev;
        destruct Hev as [_ _ _ _ Hkept _]; by rewrite Hkept.
    + rewrite handle_isolated by done.
      intros [[= <-]|[? [=]]]. by right.
Qed.

End Placement.

(** X4.  A registration whose [on_register] returns puts the engine
    behind every entry of lower or equal priority and before every entry
    of higher priority, keeps the other entries in their order, invokes
    [on_register] once, with the engine already in place, and returns. *)
Theorem register_engine_position (C : Contract) (fuel : nat)
    (s : OrchestrationEngine) (e : BaseEngine) (w' : WorldState) :
  StronglySorted by_priority (engines s) →
  c_on_register C e (world_state s) = Return w' →
  ∃ s', register_engine (contract_hooks C) fuel (Engine e) s = Done s' ∧
        engines s' = filter (fun x => priority x <= priority e) (engines s)
                     ++ e :: filter (fun x => priority e < priority x) (engines s) ∧
        world_state s' = w' ∧
        calls s' = calls s ++ [OnRegister e] ∧
        running s' = running s.
Proof.
  intros Hs Hreg. unfold register_engine. simpl. rewrite Hreg. simpl.
  eexists. split; [done|]. simpl. split_and!; try done.
  by apply sort_by_priority_snoc.
Qed.

Lemma register_engine_position_witness :
  ∃ s', register_engine (contract_hooks (scripted [] [] [])) 5
          (Engine alpha_twin) (three_engines (scripted [] [] []) false) = Done s' ∧
        engines s' = [alpha; alpha_twin; beta; gamma].
Proof.
  edestruct (register_engine_position (scripted [] [] []) 5
               (three_engines (scripted [] [] []) false) alpha_twin)
    as (s' & Hd & He & _).
  - assert (engines (three_engines (scripted [] [] []) false)
            = [alpha; beta; gamma]) as -> by (vm_compute; reflexivity).
    repeat constructor; unfold by_priority; simpl; lia.
  - vm_compute. reflexivity.
  - exists s'. split; [exact Hd|]. rewrite He. vm_compute. reflexivity.
Defined.

(** X5.  Registering an engine under a name the registry does not hold
    and then removing that name gives back the registry as it was, entry
    for entry, whether [on_register] returned or raised and in either
    mode. *)
Theorem register_then_unregister (C : Contract) (fuel : nat)
    (s s' : OrchestrationEngine) (e : BaseEngine) :
  StronglySorted by_priority (engines s) →
  name e ∉ list_engines s →
  (register_engine (contract_hooks C) fuel (Engine e) s = Done s' ∨
   ∃ err, register_engine (contract_hooks C) fuel (Engine e) s = Raised err s') →
  engines (unregister_engine (name e) s') = engines s.
Proof.
  intros Hs Hfresh Hout. simpl.
  destruct (register_engine_registry C fuel e s s' Hout) as [-> | ->].
  - by apply sort_snoc_then_filter.
  - rewrite list_filter_filter_l by done. by apply sort_snoc_then_filter.
Qed.

Lemma register_then_unregister_witness :
  ∃ s', register_engine (contract_hooks (scripted [2%nat] [] [])) 5
          (Engine beta)
          (after_calls (scripted [] [] [])
             [CallRegister (Engine gamma); CallRegister (Engine alpha)]
             (scheduler true)) = Raised boom s' ∧
        engines s' = [alpha; beta; gamma] ∧
        engines (unregister_engine "beta" s') = [alpha; gamma].
Proof.
  eexists. split; [vm_compute; reflexivity|].
  split; [vm_compute; reflexivity|].
  rewrite (register_then_unregister (scripted [2%nat] [] []) 5
             (after_calls (scripted [] [] [])
                [CallRegister (Engine gamma); CallRegister (Engine alpha)]
                (scheduler true)) _ beta).
  - vm_compute. reflexivity.
  - assert (engines (after_calls (scripted [] [] [])
                       [CallRegister (Engine gamma); CallRegister (Engine alpha)]
                       (scheduler true))
            = [alpha; gamma]) as -> by (vm_compute; reflexivity).
    repeat constructor; unfold by_priority; simpl; lia.
  - apply (bool_decide_unpack _). vm_compute. exact I.
  - right. exists boom. vm_compute. reflexivity.
Defined.

(** X6.  Isolated mode, [on_register] raises a failure whose class
    derives from [Exception]: [register_engine] returns normally, no
    [on_shutdown] is invoked, and the registry is left without any entry
    of the name of the failed engine, entries of that name registered
    earlier included. *)
Theorem isolated_register_failure (C : Contract) (fuel : nat)
    (s : OrchestrationEngine) (e : BaseEngine) (err : Exn) (w : WorldState) :
  strict s = false →
  c_on_register C e (world_state s) = Raise err w →
  is_Exception err = true →
  ∃ s', register_engine (contract_hooks C) fuel (Engine e) s = Done s' ∧
        engines s' = filter (fun x => name x ≠ name e)
                       (sort_by_priority (engines s ++ [e])) ∧
        (name e ∉ list_engines s') ∧
        (∀ x, x ∈ engines s → name x ≠ name e → x ∈ engines s') ∧
        world_state s' = w ∧
        calls s' = calls s ++ [OnRegister e] ∧
        running s' = running s.
Proof.
  intros Hs Hreg Hexn. unfold register_engine. simpl. rewrite Hreg. simpl.
  rewrite Hexn, handle_isolated by done.
  eexists. split; [done|]. simpl. split_and!; try done.
  - unfold list_engines. simpl. rewrite names_filter, list_elem_of_filter.
    by intros [Hne _].
  - intros x Hx Hne. apply list_elem_of_filter. split; [done|].
    rewrite sort_by_priority_perm. apply elem_of_app. by left.
Qed.

Lemma isolated_register_failure_witness :
  ∃ s', register_engine (contract_hooks (scripted [4%nat] [] [])) 5
          (Engine alpha_twin) (three_engines (scripted [] [] []) false) = Done s' ∧
        list_engines (three_engines (scripted [] [] []) false)
          = ["alpha"; "beta"; "gamma"] ∧
        list_engines s' = ["beta"; "gamma"] ∧
        shutdowns (calls s') = [].
Proof.
  edestruct (isolated_register_failure (scripted [4%nat] [] []) 5
               (three_engines (scripted [] [] []) false) alpha_twin boom)
    as (s' & Hd & He & _ & _ & _ & Hc & _).
  - vm_compute. reflexivity.
  - vm_compute. reflexivity.
  - reflexivity.
  - exists s'. split; [exact Hd|]. unfold list_engines. rewrite He, Hc.
    split_and!; vm_compute; reflexivity.
Defined.

(** ** [stop] in isolated mode *)

Section IsolatedStop.

Variable C : Contract.
Hypothesis HC : only_exceptions C.

Implicit Types (s : OrchestrationEngine) (e : BaseEngine) (l : list BaseEngine).

(** Rebinding [self.engines] leaves the list objects in use untouched. *)
Lemma list_at_unregister n s k :
  (k ≤ engines_id s)%nat →
  list_at (unregister_engine n s) k = list_at s k.
Proof.
  intros Hk. unfold list_at, engines_id in *. simpl. rewrite length_app. simpl.
  rewrite decide_False by lia.
  destruct (decide (k = length (retired s))) as [->|Hne].
  - by rewrite lookup_app_r, Nat.sub_diag by lia.
  - by rewrite lookup_app_l by lia.
Qed.

Lemma absent_stays_absent s s' n :
  evolves s s' → n ∉ list_engines s → n ∉ list_engines s'.
Proof.
  intros [_ _ _ Hsub _ _] Hn Hin. apply Hn.
  eapply elem_of_sublist; [exact Hin|]. unfold list_engines. by apply fmap_sublist.
Qed.

Lemma stop_loop_isolated fuel k l : ∀ i s,
  strict s = false →
  (k ≤ engines_id s)%nat →
  list_at s k = l →
  (length l - i < fuel)%nat →
  ∃ s', stop_loop (contract_hooks C) fuel k i s = Done s' ∧
        calls s' = calls s ++ (OnShutdown <$> drop i l) ∧
        running s' = running s ∧
        evolves s s' ∧
        ∀ e, e ∈ drop i l →
             (∀ w, ∃ err w', c_on_shutdown C e w = Raise err w') →
             name e ∉ list_engines s'.
Proof.
  induction fuel as [|fuel IH]; intros i s Hs Hk Hl Hf; [lia|].
  simpl. rewrite Hl. destruct (l !! i) as [e|] eqn:Hi.
  - apply lookup_lt_Some in Hi as Hlt.
    rewrite (drop_S l e i Hi).
    destruct (c_on_shutdown C e (world_state s)) as [w|err w] eqn:Hhook; simpl.
    + destruct (IH (S i) (set_world_state w (record_call (OnShutdown e) s)))
        as (s' & Hd & Hc & Hr & Hev & Hbad); [done|done|by rewrite <- Hl|lia|].
      exists s'. split; [done|]. split_and!.
      * rewrite Hc. simpl. by rewrite <- app_assoc.
      * done.
      * etrans; [|exact Hev]. etrans; [apply (evolves_record_shutdown e)|].
        apply evolves_set_world_state.
      * intros x [->|Hx]%elem_of_cons Hraise; [|by apply Hbad].
        destruct (Hraise (world_state s)) as (? & ? & Hr'). congruence.
    + rewrite (only_on_shutdown C HC _ _ _ _ Hhook).
      rewrite handle_isolated by done.
      match goal with |- context [stop_loop _ fuel k (S i) ?s2] =>
        destruct (IH (S i) s2) as (s' & Hd & Hc & Hr & Hev & Hbad);
          [done| |by rewrite list_at_unregister by done|lia|];
          [unfold engines_id in *; simpl; rewrite length_app; simpl; lia|];
        assert (evolves s s2) as Hev2;
          [etrans; [apply (evolves_record_shutdown e)|];
           etrans; [apply (evolves_set_world_state w)|];
           etrans; [|by apply evolves_unregister]; by constructor|];
        assert (name e ∉ list_engines s2) as Hgone
      end.
      { unfold list_engines. simpl. rewrite names_filter, list_elem_of_filter.
        by intros [Hne _]. }
      exists s'. split; [done|]. split_and!.
      * rewrite Hc. simpl. by rewrite <- app_assoc.
      * done.
      * by etrans.
      * intros x [->|Hx]%elem_of_cons Hraise; [|by apply Hbad].
        by eapply absent_stays_absent.
  - apply lookup_ge_None_1 in Hi. rewrite drop_ge by done.
    exists s. split_and!; try done.
    + by rewrite app_nil_r.
    + intros e He. by apply elem_of_nil in He.
Qed.

End IsolatedStop.

(** X7.  In isolated mode, with hooks whose failures all derive from
    [Exception], [stop] always returns: [running] is false, [on_shutdown]
    has been invoked once for every entry the registry had when [stop]
    was called, in registry order, also after some of these hooks raised
    (the loop keeps reading the list it started on while
    [unregister_engine] binds [self.engines] to new lists); the registry
    only lost entries, among them every component whose [on_shutdown]
    can only raise. *)
Theorem isolated_stop (C : Contract) (fuel : nat) (s : OrchestrationEngine) :
  only_exceptions C →
  strict s = false →
  (length (engines s) < fuel)%nat →
  ∃ s', stop (contract_hooks C) fuel s = Done s' ∧
        running s' = false ∧
        calls s' = calls s ++ (OnShutdown <$> engines s) ∧
        engines s' `sublist_of` engines s ∧
        ∀ e, e ∈ engines s →
             (∀ w, ∃ err w', c_on_shutdown C e w = Raise err w') →
             name e ∉ list_engines s'.
Proof.
  intros HC Hs Hf. unfold stop, stop_with.
  destruct (stop_loop_isolated C HC fuel (engines_id (stop_enter s)) (engines s)
              0%nat (stop_enter s))
    as (s' & Hd & Hc & Hr & Hev & Hbad); [done|done| |simpl; lia|].
  { apply (list_at_current (stop_enter s)). }
  exists s'. split; [done|]. split_and!; try done.
  by destruct Hev.
Qed.

Lemma isolated_stop_witness :
  ∃ s', stop (contract_hooks (scripted [] [] [2%nat])) 5
          (three_engines (scripted [] [] []) false) = Done s' ∧
        shutdowns (calls s') = [alpha; beta; gamma] ∧
        list_engines s' = ["alpha"; "gamma"] ∧
        events (world_state s') = [VStr "bye:alpha"; VStr "bye:gamma"].
Proof.
  edestruct (isolated_stop (scripted [] [] [2%nat]) 5
               (three_engines (scripted [] [] []) false))
    as (s' & Hd & _ & Hc & _).
  - apply only_exceptions_scripted.
  - vm_compute. reflexivity.
  - vm_compute. lia.
  - assert (stop (contract_hooks (scripted [] [] [2%nat])) 5
              (three_engines (scripted [] [] []) false) = Done s') as Hd' by exact Hd.
    vm_compute in Hd'. injection Hd' as <-.
    eexists. split; [exact Hd|]. split_and!; vm_compute; reflexivity.
Defined.

(** ** Any sequence of calls *)

Section Driven.

Variable C : Contract.

Implicit Types (s : OrchestrationEngine) (ms : list MethodCall).

(** What a call keeps of the configuration. *)
Lemma method_call_configuration fuel m s :
  match method_call (contract_hooks C) fuel m s with
  | Done s' | Raised _ s' =>
      tick_rate s' = tick_rate s ∧ tick_duration s' = tick_duration s ∧
      strict s' = strict s
  | OutOfFuel => True
  end.
Proof.
  destruct m as [[e|v]|n| |]; unfold method_call; try done.
  - pose proof (register_engine_evolves C fuel e s) as Hev.
    destruct (register_engine _ fuel (Engine e) s); [| |done]; by destruct Hev.
  - pose proof (stop_evolves C fuel s) as Hev.
    destruct (stop _ fuel s); [| |done]; by destruct Hev.
  - pose proof (tick_evolves C fuel s) as Hev. unfold step_once.
    destruct (_tick _ fuel s); [| |done]; by destruct Hev.
Qed.

Lemma method_call_registration_order fuel m s :
  in_registration_order s →
  match method_call (contract_hooks C) fuel m s with
  | Done s' | Raised _ s' => in_registration_order s'
  | OutOfFuel => True
  end.
Proof.
  intros Hs. destruct m as [o|n| |].
  - apply (in_registration_order_api_call C fuel (CallRegister o) s Hs).
  - apply (in_registration_order_api_call C fuel (CallUnregister n) s Hs).
  - unfold method_call. pose proof (stop_evolves C fuel s) as Hev.
    destruct (stop _ fuel s); [| |done]; destruct Hev;
      by eapply in_registration_order_shrink.
  - unfold method_call, step_once. pose proof (tick_evolves C fuel s) as Hev.
    destruct (_tick _ fuel s); [| |done]; destruct Hev;
      by eapply in_registration_order_shrink.
Qed.

Lemma method_call_clock fuel m s n t :
  keeps_clock C →
  tick (world_state s) = n → time (world_state s) = t →
  match method_call (contract_hooks C) fuel m s with
  | Done s' | Raised _ s' =>
      match m with
      | DoStepOnce =>
          tick (world_state s') = n + 1 ∧
          time (world_state s') = (t + tick_duration s)%float
      | _ => tick (world_state s') = n ∧ time (world_state s') = t
      end
  | OutOfFuel => True
  end.
Proof.
  intros Hk Hn Ht. destruct m as [o|x| |]; unfold method_call.
  - pose proof (register_engine_world C _ (Hk n t) fuel o s (conj Hn Ht)) as Hw.
    by destruct (register_engine _ fuel o s).
  - done.
  - pose proof (stop_world C _ (Hk n t) fuel s (conj Hn Ht)) as Hw.
    by destruct (stop _ fuel s).
  - unfold step_once, _tick.
    pose proof (tick_loop_world C _ (Hk (n + 1) (t + tick_duration s)%float)
                  fuel (engines (tick_enter s)) (tick_enter s)) as Hw.
    simpl in Hw. rewrite Hn, Ht in Hw. specialize (Hw (conj eq_refl eq_refl)).
    by destruct (tick_loop _ fuel _ _).
Qed.

End Driven.

(** X8.  The construction parameters are fixed: after any sequence of
    [register_engine], [unregister_engine], [stop] and [step_once] calls,
    whatever the hooks did to the world state and whichever calls raised,
    [tick_rate], [tick_duration] and [strict] are as the constructor set
    them. *)
Theorem configuration_is_fixed (C : Contract) (fuel : nat) (ms : list MethodCall) :
  ∀ s s',
  drive (contract_hooks C) fuel ms s = Some s' →
  tick_rate s' = tick_rate s ∧ tick_duration s' = tick_duration s ∧
  strict s' = strict s.
Proof.
  induction ms as [|m ms IH]; intros s s'; simpl.
  - by intros [= <-].
  - pose proof (method_call_configuration C fuel m s) as Hm.
    destruct (method_call _ fuel m s) as [s1|err s1|]; [| |done];
      intros Hd; destruct Hm as (Hr & Hd1 & Hs); apply IH in Hd as (? & ? & ?);
      split_and!; congruence.
Qed.

Lemma configuration_is_fixed_witness :
  ∃ s', drive (contract_hooks (scripted [1%nat] [2%nat] [3%nat])) 9
          [DoRegister (Engine alpha); DoRegister (Engine gamma);
           DoRegister (Engine beta); DoStepOnce; DoStop; DoUnregister "gamma";
           DoStepOnce]
          (scheduler false) = Some s' ∧
        tick_duration s' = (1.0 / 10)%float ∧ strict s' = false.
Proof.
  edestruct (configuration_is_fixed (scripted [1%nat] [2%nat] [3%nat]) 9
               [DoRegister (Engine alpha); DoRegister (Engine gamma);
                DoRegister (Engine beta); DoStepOnce; DoStop; DoUnregister "gamma";
                DoStepOnce]
               (scheduler false)) as (_ & Hd & Hs).
  - vm_compute. reflexivity.
  - eexists. split; [vm_compute; reflexivity|]. split; [exact Hd|exact Hs].
Defined.

(** X9.  The order of the registry survives ticks and shutdowns: after
    any sequence of [register_engine], [unregister_engine], [stop] and
    [step_once] calls on a registry in order, evictions by the fault policy
    included, priorities ascend and the entries of one priority stand in
    the order of their registration. *)
Theorem registry_order_all_calls (C : Contract) (fuel : nat) (ms : list MethodCall) :
  ∀ s s',
  in_registration_order s →
  drive (contract_hooks C) fuel ms s = Some s' →
  in_registration_order s'.
Proof.
  induction ms as [|m ms IH]; intros s s' Hs; simpl.
  - by intros [= <-].
  - pose proof (method_call_registration_order C fuel m s Hs) as Hm.
    destruct (method_call _ fuel m s); [by apply IH..|done].
Qed.

Lemma registry_order_all_calls_witness :
  ∃ s', drive (contract_hooks (scripted [] [2%nat] [])) 9
          [DoRegister (Engine gamma); DoRegister (Engine alpha_twin);
           DoRegister (Engine beta); DoRegister (Engine alpha); DoStepOnce;
           DoStop]
          (scheduler false) = Some s' ∧
        engines s' = [alpha_twin; alpha; gamma] ∧
        in_registration_order s'.
Proof.
  eexists. split; [vm_compute; reflexivity|].
  split; [vm_compute; reflexivity|].
  apply (registry_order_all_calls (scripted [] [2%nat] []) 9
           [DoRegister (Engine gamma); DoRegister (Engine alpha_twin);
            DoRegister (Engine beta); DoRegister (Engine alpha); DoStepOnce;
            DoStop]
           (scheduler false)).
  - split; [constructor|done].
  - vm_compute. reflexivity.
Defined.

(** X10.  The tick counter counts the ticks: with hooks that leave
    ["tick"] and ["time"] alone, after any sequence of calls the counter
    has grown by the number of [step_once] calls in it, those that raised
    included, and [time] is the result of that many float additions of the
    tick duration. *)
Theorem ticks_are_counted (C : Contract) (fuel : nat) (ms : list MethodCall) :
  ∀ s s',
  keeps_clock C →
  drive (contract_hooks C) fuel ms s = Some s' →
  tick (world_state s') = tick (world_state s) + Z.of_nat (ticks_in ms) ∧
  time (world_state s')
    = advance (ticks_in ms) (tick_duration s) (time (world_state s)).
Proof.
  induction ms as [|m ms IH]; intros s s' Hk; simpl.
  - intros [= <-]. split; [lia|done].
  - pose proof (method_call_clock C fuel m s _ _ Hk eq_refl eq_refl) as Hc.
    pose proof (method_call_configuration C fuel m s) as Hm.
    destruct (method_call _ fuel m s) as [s1|err s1|]; [| |done];
      intros Hd; destruct Hm as (_ & Hdur & _);
      apply (IH _ _ Hk) in Hd as [Htick Htime];
      rewrite Htick, Htime, Hdur;
      destruct m; destruct Hc as [-> ->]; simpl; split; (lia || done).
Qed.

Lemma keeps_clock_scripted r st sh : keeps_clock (scripted r st sh).
Proof.
  intros n t. split; intros; simpl; by case_bool_decide.
Qed.

Lemma ticks_are_counted_witness :
  ∃ s', drive (contract_hooks (scripted [] [2%nat] [])) 9
          [DoRegister (Engine alpha); DoRegister (Engine beta); DoStepOnce;
           DoStepOnce; DoStop; DoStepOnce]
          (scheduler true) = Some s' ∧
        tick (world_state s') = 3 ∧
        time (world_state s') = (((0.0 + 1.0 / 10) + 1.0 / 10) + 1.0 / 10)%float.
Proof.
  edestruct (ticks_are_counted (scripted [] [2%nat] []) 9
               [DoRegister (Engine alpha); DoRegister (Engine beta); DoStepOnce;
                DoStepOnce; DoStop; DoStepOnce]
               (scheduler true)) as (Htick & Htime).
  - apply keeps_clock_scripted.
  - vm_compute. reflexivity.
  - eexists. split; [vm_compute; reflexivity|]. split.
    + rewrite Htick. vm_compute. reflexivity.
    + rewrite Htime. vm_compute. reflexivity.
Defined.

(** ** Continuous mode *)

Section Continuous.

Variable C : Contract.
Variable sleep : float → option Exn.

Implicit Types (s : OrchestrationEngine) (clock : list float).

(** A tick that returns leaves [running] as it was. *)
Lemma tick_loop_done_running fuel l : ∀ s s',
  tick_loop (contract_hooks C) fuel l s = Done s' → running s' = running s.
Proof.
  induction l as [|e l IH]; intros s s'; simpl.
  - by intros [= <-].
  - destruct (c_step C e _ _) as [w|err w]; simpl.
    + intros Hd. by rewrite (IH _ _ Hd).
    + destruct (is_Exception err); [|done].
      match goal with |- context [_handle_engine_error ?st e err ?s1] =>
        destruct (strict s1) eqn:Hstrict
      end.
      * rewrite handle_strict by done. by destruct (stop _ _ _).
      * rewrite handle_isolated by done. intros Hd. by rewrite (IH _ _ Hd).
Qed.

Lemma run_loop_from_not_exited fuel clock : ∀ last_time s s',
  running s = true →
  run_loop_from (contract_hooks C) sleep fuel clock last_time s ≠ Exited s'.
Proof.
  induction clock as [|now clock IH]; intros last_time s s' Hr; simpl; rewrite Hr.
  - done.
  - destruct (tick_duration s <=? now - last_time)%float.
    + destruct (_tick _ fuel s) as [s1|err s1|] eqn:Ht; [|done..].
      apply IH. unfold _tick in Ht.
      by rewrite (tick_loop_done_running _ _ _ _ Ht).
    + destruct (sleep _); [done|]. by apply IH.
Qed.

(** One iteration of a due reading, isolated mode. *)
Lemma tick_isolated fuel s :
  only_exceptions C →
  strict s = false →
  keeps_clock C →
  ∃ s1, _tick (contract_hooks C) fuel s = Done s1 ∧
        strict s1 = false ∧ running s1 = running s ∧
        tick_duration s1 = tick_duration s ∧
        tick (world_state s1) = tick (world_state s) + 1 ∧
        time (world_state s1) = (time (world_state s) + tick_duration s)%float.
Proof.
  intros HC Hs Hk. unfold _tick.
  destruct (tick_loop_isolated C fuel (engines (tick_enter s)) (tick_enter s) HC Hs)
    as [s1 Hd].
  exists s1. split; [done|].
  pose proof (tick_loop_evolves C fuel (engines (tick_enter s)) (tick_enter s)) as Hev.
  pose proof (tick_loop_world C _
                (Hk (tick (world_state s) + 1)
                    (time (world_state s) + tick_duration s)%float)
                fuel (engines (tick_enter s)) (tick_enter s)
                (conj eq_refl eq_refl)) as Hw.
  rewrite Hd in Hev, Hw. simpl in Hev, Hw. destruct Hev as [_ Hdur Hstrict _ _ _], Hw.
  split_and!; try done.
  - by rewrite Hstrict.
  - by rewrite (tick_loop_done_running _ _ _ _ Hd).
Qed.

Lemma run_loop_from_isolated fuel clock : ∀ last_time s,
  only_exceptions C →
  strict s = false →
  running s = true →
  keeps_clock C →
  (∀ d, sleep d = None) →
  ∃ s', run_loop_from (contract_hooks C) sleep fuel clock last_time s = Pending s' ∧
        running s' = true ∧
        tick (world_state s')
          = tick (world_state s)
            + Z.of_nat (due_count (tick_duration s) last_time clock) ∧
        time (world_state s')
          = advance (due_count (tick_duration s) last_time clock)
              (tick_duration s) (time (world_state s)).
Proof.
  induction clock as [|now clock IH]; intros last_time s HC Hs Hr Hk Hsleep;
    simpl; rewrite Hr.
  - exists s. split_and!; [done|done|lia|done].
  - destruct (tick_duration s <=? now - last_time)%float.
    + destruct (tick_isolated fuel s HC Hs Hk)
        as (s1 & -> & Hs1 & Hr1 & Hd1 & Htick & Htime).
      destruct (IH now s1) as (s' & Hp & Hr' & Htick' & Htime');
        [done|done|congruence|done|done|].
      exists s'. split; [done|]. split; [done|].
      rewrite Htick', Htime', Hd1, Htick, Htime. simpl. split; [lia|done].
    + rewrite Hsleep. by apply IH.
Qed.

End Continuous.

(** X11.  With components that act on the world state they are handed,
    [start] never returns normally, whatever the clock reads and whatever
    [time.sleep] does: nothing but a call of [stop] clears [running], and
    the scheduler calls [stop] only on the way to re-raising a failure. *)
Theorem start_never_returns (C : Contract) (sleep : float → option Exn)
    (fuel : nat) (clock : list float) (s s' : OrchestrationEngine) :
  start (contract_hooks C) sleep fuel clock s ≠ Exited s'.
Proof.
  unfold start, _run_loop. destruct clock as [|t0 clock]; [done|].
  by apply run_loop_from_not_exited.
Qed.

(** X12.  Pacing in isolated mode, [time.sleep] returning, the hooks
    leaving ["tick"] and ["time"] alone and raising nothing but failures
    that derive from [Exception]: while the clock readings last,
    [start] performs one tick at every reading that lies at least a tick
    duration after the reading of the previous tick (before the first
    tick: after the first reading) and none at the others; a late reading
    gives one tick, not one per missed duration. *)
Theorem start_paces_ticks (C : Contract) (sleep : float → option Exn)
    (fuel : nat) (t0 : float) (clock : list float) (s : OrchestrationEngine) :
  only_exceptions C →
  strict s = false →
  keeps_clock C →
  (∀ d, sleep d = None) →
  ∃ s', start (contract_hooks C) sleep fuel (t0 :: clock) s = Pending s' ∧
        running s' = true ∧
        tick (world_state s')
          = tick (world_state s) + Z.of_nat (due_count (tick_duration s) t0 clock) ∧
        time (world_state s')
          = advance (due_count (tick_duration s) t0 clock)
              (tick_duration s) (time (world_state s)).
Proof.
  intros HC Hs Hk Hsleep. unfold start, _run_loop.
  by apply (run_loop_from_isolated C sleep fuel clock t0
              (set_running true (print "[Orchestrator] Starting" s))).
Qed.

Lemma start_paces_ticks_witness :
  ∃ s', start (contract_hooks (scripted [] [2%nat] [])) (fun _ => None) 5
          [0.0; 0.0625; 0.125; 0.25; 0.3125; 5.0]%float
          (three_engines (scripted [] [] []) false) = Pending s' ∧
        running s' = true ∧
        tick (world_state s') = 3 ∧
        list_engines s' = ["alpha"; "gamma"].
Proof.
  edestruct (start_paces_ticks (scripted [] [2%nat] []) (fun _ => None) 5
               0.0%float [0.0625; 0.125; 0.25; 0.3125; 5.0]%float
               (three_engines (scripted [] [] []) false))
    as (s' & Hp & Hr & Htick & _).
  - apply only_exceptions_scripted.
  - vm_compute. reflexivity.
  - apply keeps_clock_scripted.
  - done.
  - assert (start (contract_hooks (scripted [] [2%nat] [])) (fun _ => None) 5
              [0.0; 0.0625; 0.125; 0.25; 0.3125; 5.0]%float
              (three_engines (scripted [] [] []) false) = Pending s') as Hp'
      by exact Hp.
    vm_compute in Hp'. injection Hp' as <-.
    eexists. split; [exact Hp|]. split_and!; vm_compute; reflexivity.
Defined.

(** ** [InputEngine] and [run.py] *)

Section Input.

Implicit Types (w : WorldState) (d : list (string * PyVal)) (l : list PyVal).

Lemma dict_get_set k v d : dict_get k (dict_set k v d) = Some v.
Proof.
  induction d as [|[k' v'] d IH]; simpl.
  - by rewrite decide_True.
  - destruct (decide (k' = k)) as [->|Hne]; simpl.
    + by rewrite decide_True.
    + by rewrite decide_False.
Qed.

Lemma input_step_ready w l dt :
  input_slot w l →
  ∃ w', input_step w dt = Return w' ∧
        tick w' = tick w ∧ time w' = time w ∧
        if decide (tick w mod 60 = 0)
        then events w' = events w ++ [key_press w] ∧
             input_slot w' (l ++ [key_press w])
        else w' = w.
Proof.
  intros (d & Hin & Hraw). unfold input_step.
  destruct (decide (tick w mod 60 = 0)); [|by exists w].
  simpl. rewrite Hin, Hraw. eexists. split; [done|]. simpl.
  split_and!; try done.
  eexists. split; [apply lookup_insert_eq|apply dict_get_set].
Qed.

Lemma sixty_next n :
  0 <= n →
  (n + 1) / 60 = if decide ((n + 1) mod 60 = 0) then n / 60 + 1 else n / 60.
Proof.
  intros Hn. case_decide; Z.to_euclidean_division_equations; lia.
Qed.

Lemma run_py_tick fuel s :
  run_py_invariant s →
  ∃ s1, _tick (contract_hooks input_contract) fuel s = Done s1 ∧
        run_py_invariant s1 ∧
        tick_duration s1 = tick_duration s ∧
        tick (world_state s1) = tick (world_state s) + 1.
Proof.
  intros (Hs & Hr & He & Hpos & l & (d & Hin & Hraw) & Hlen).
  unfold _tick. change (engines (tick_enter s)) with (engines s). rewrite He.
  simpl.
  destruct (input_step_ready
              (mkWorld (time (world_state s) + tick_duration s)%float
                       (tick (world_state s) + 1) (entities (world_state s)) []
                       (meta (world_state s)) (extra (world_state s)))
              l (tick_duration s))
    as (w' & -> & Htick & Htime & Hw').
  { by exists d. }
  simpl in *. eexists. split; [done|]. simpl.
  split; [|done]. unfold run_py_invariant. simpl.
  split_and!; try done; [lia|].
  rewrite Htick, sixty_next by done.
  destruct (decide ((tick (world_state s) + 1) mod 60 = 0)).
  - destruct Hw' as [_ Hslot]. eexists. split; [exact Hslot|].
    rewrite length_app. simpl. lia.
  - subst w'. exists l. split; [by exists d|done].
Qed.

Lemma run_py_loop (sleep : float → option Exn) fuel clock : ∀ last_time s,
  run_py_invariant s →
  (∀ x, sleep x = None) →
  ∃ s', run_loop_from (contract_hooks input_contract) sleep fuel clock last_time s
        = Pending s' ∧
        run_py_invariant s' ∧
        tick (world_state s')
          = tick (world_state s)
            + Z.of_nat (due_count (tick_duration s) last_time clock).
Proof.
  induction clock as [|now clock IH]; intros last_time s Hinv Hsleep; simpl.
  - destruct Hinv as (Hs & Hr & Hrest) eqn:E. rewrite Hr.
    exists s. split_and!; [done|done|lia].
  - pose proof Hinv as (_ & Hr & _). rewrite Hr.
    destruct (tick_duration s <=? now - last_time)%float.
    + destruct (run_py_tick fuel s Hinv) as (s1 & -> & Hinv1 & Hd1 & Htick).
      destruct (IH now s1 Hinv1 Hsleep) as (s' & Hp & Hinv' & Htick').
      exists s'. split_and!; [done|done|]. rewrite Htick', Hd1, Htick. lia.
    + rewrite Hsleep. by apply IH.
Qed.

End Input.

(** X13.  [InputEngine.step], once ["input"] is in place: it never
    raises and leaves ["tick"] and ["time"] alone; on a tick that is a
    multiple of sixty it appends one key-press event (stamped with the
    current [time]) to [events] and to ["input"]["raw_events"], on any
    other tick it changes nothing. *)
Theorem input_step_emits (w : WorldState) (l : list PyVal) (dt : float) :
  input_slot w l →
  ∃ w', input_step w dt = Return w' ∧
        tick w' = tick w ∧ time w' = time w ∧
        if decide (tick w mod 60 = 0)
        then events w' = events w ++ [key_press w] ∧
             input_slot w' (l ++ [key_press w])
        else w' = w.
Proof. apply input_step_ready. Qed.

Lemma input_step_emits_witness :
  ∃ w', input_step
          (reply_world (input_on_register (mkWorld 6.0%float 60 ∅ [] ∅ ∅)))
          (1.0 / 10)%float = Return w' ∧
        events w' = [VDict [("type", VStr "key_press"); ("key", VStr "SPACE");
                            ("time", VFloat 6.0%float)]].
Proof.
  edestruct (input_step_emits
               (reply_world (input_on_register (mkWorld 6.0%float 60 ∅ [] ∅ ∅)))
               [] (1.0 / 10)%float) as (w' & Hstep & _ & _ & Hw').
  - eexists. split; vm_compute; reflexivity.
  - exists w'. split; [exact Hstep|].
    destruct (decide _) as [_|Hne] in Hw'; [|by destruct Hne].
    destruct Hw' as [-> _]. vm_compute. reflexivity.
Defined.

(** X14.  [InputEngine.step] without ["input"] in the world state, in a
    scheduler in isolated mode that holds just this engine, on a tick that
    is a multiple of sixty: the hook raises [KeyError] after it has
    appended the key-press event to [events]; the tick returns, the event
    stays in [events], and the engine is evicted. *)
Theorem input_engine_without_slot (fuel : nat) (s : OrchestrationEngine) :
  strict s = false →
  engines s = [InputEngine] →
  extra (world_state s) !! "input" = None →
  (tick (world_state s) + 1) mod 60 = 0 →
  ∃ s', step_once (contract_hooks input_contract) fuel s = Done s' ∧
        list_engines s' = [] ∧
        events (world_state s') = [key_press (world_state (tick_enter s))] ∧
        extra (world_state s') = extra (world_state s) ∧
        tick (world_state s') = tick (world_state s) + 1.
Proof.
  intros Hs He Hno Hmod. unfold step_once, _tick.
  change (engines (tick_enter s)) with (engines s). rewrite He. simpl.
  unfold input_step. simpl. rewrite decide_True by done. simpl. rewrite Hno. simpl.
  rewrite handle_isolated by done. simpl.
  eexists. split; [done|]. simpl. split_and!; try done.
  unfold list_engines. simpl. rewrite He. done.
Qed.

Lemma input_engine_without_slot_witness :
  ∃ s', step_once (contract_hooks input_contract) 5
          (set_world_state (mkWorld 5.9375%float 59 ∅ [] ∅ ∅)
             (set_engines [InputEngine] (scheduler false))) = Done s' ∧
        list_engines s' = [] ∧
        length (events (world_state s')) = 1%nat.
Proof.
  edestruct (input_engine_without_slot 5
               (set_world_state (mkWorld 5.9375%float 59 ∅ [] ∅ ∅)
                  (set_engines [InputEngine] (scheduler false))))
    as (s' & Hd & Hl & Hev & _).
  - vm_compute. reflexivity.
  - vm_compute. reflexivity.
  - vm_compute. reflexivity.
  - vm_compute. reflexivity.
  - exists s'. split; [exact Hd|]. split; [exact Hl|]. by rewrite Hev.
Defined.

(** X15.  [run.py], [time.sleep] returning: the program is still in
    its loop when the clock readings run out, [InputEngine] is still
    registered (its [step] never failed), the tick counter is the number
    of readings at which a tick was due, and ["input"]["raw_events"] holds
    one key-press for every sixty ticks. *)
Theorem run_py_keeps_running (sleep : float → option Exn) (fuel : nat)
    (t0 : float) (clock : list float) :
  (∀ x, sleep x = None) →
  ∃ s', run_py sleep fuel (t0 :: clock) = Pending s' ∧
        list_engines s' = ["InputEngine"] ∧
        running s' = true ∧
        tick (world_state s') = Z.of_nat (due_count (1.0 / 10)%float t0 clock) ∧
        ∃ l, input_slot (world_state s') l ∧
             Z.of_nat (length l) = tick (world_state s') / 60.
Proof.
  intros Hsleep. unfold run_py, __init__.
  replace (10 =? 0.0)%float with false by (vm_compute; reflexivity).
  unfold register_engine. simpl. unfold start, _run_loop.
  match goal with |- context [run_loop_from _ sleep fuel clock t0 ?s] =>
    destruct (run_py_loop sleep fuel clock t0 s) as (s' & Hp & Hinv & Htick)
  end.
  - unfold run_py_invariant. simpl. split_and!; try done.
    exists []. split; [|done]. eexists. split; [apply lookup_insert_eq|done].
  - done.
  - destruct Hinv as (Hs & Hr & He & Hpos & Hl).
    exists s'. split; [exact Hp|]. split_and!; try done.
    unfold list_engines. by rewrite He.
Qed.

Lemma run_py_keeps_running_witness :
  ∃ s', run_py (fun _ => None) 5 [0.0; 0.0625; 0.125; 0.25; 0.3125; 5.0]%float
        = Pending s' ∧
        list_engines s' = ["InputEngine"] ∧
        tick (world_state s') = 3.
Proof.
  edestruct (run_py_keeps_running (fun _ => None) 5 0.0%float
               [0.0625; 0.125; 0.25; 0.3125; 5.0]%float)
    as (s' & Hp & Hl & _ & Htick & _).
  - done.
  - exists s'. split; [exact Hp|]. split; [exact Hl|].
    rewrite Htick. vm_compute. reflexivity.
Defined.

(** ** A second failure during a strict shutdown *)

Section SecondFailure.

Variable C : Contract.
Variable P : WorldState → Prop.
Hypothesis HP : hooks_preserve C P.

Implicit Types (s : OrchestrationEngine) (e : BaseEngine) (l : list BaseEngine).

(** Shutdown over world states in which no hook of [l] raises. *)
Lemma stop_loop_quiet_on fuel k l : ∀ i s,
  list_at s k = l →
  (∀ e w, e ∈ l → P w → ∃ w', c_on_shutdown C e w = Return w') →
  P (world_state s) →
  (length l - i < fuel)%nat →
  stop_loop (contract_hooks C) fuel k i s = Done (shutdown_state C (drop i l) s).
Proof.
  induction fuel as [|fuel IH]; intros i s Hl Hq Hw Hf; [lia|].
  simpl. rewrite Hl. destruct (l !! i) as [e|] eqn:Hi.
  - destruct (Hq e (world_state s)) as [w' Hw']; [|done|].
    { eapply list_elem_of_lookup_2, Hi. }
    pose proof (keep_on_shutdown C P HP e (world_state s) Hw) as Hkeep.
    rewrite Hw' in *. simpl in *.
    apply lookup_lt_Some in Hi as Hlt.
    rewrite IH; [|by rewrite <- Hl|done|done|lia].
    rewrite (drop_S l e i Hi). unfold shutdown_state. simpl.
    rewrite Hw'. simpl. by rewrite <- app_assoc.
  - apply lookup_ge_None_1 in Hi.
    by rewrite drop_ge, shutdown_state_nil.
Qed.

Lemma shutdowns_app cs1 cs2 : shutdowns (cs1 ++ cs2) = shutdowns cs1 ++ shutdowns cs2.
Proof. apply omap_app. Qed.

Lemma shutdowns_of_shutdowns l : shutdowns (OnShutdown <$> l) = l.
Proof. induction l as [|e l IH]; [done|]. simpl. by f_equal. Qed.

End SecondFailure.

(** X16.  Strict mode, a failure [err1] being handled, and the
    [on_shutdown] of the first entry of the registry raises [err2], of a
    class that derives from [Exception], during the shutdown (later
    shutdown calls returning): [stop] is entered a second time from inside
    the first, the first entry is shut down twice, and the exception that
    reaches the caller is [err2]; [err1] is never raised. *)
Theorem second_failure_replaces_first (C : Contract) (P : WorldState → Prop)
    (fuel : nat) (s : OrchestrationEngine) (e e0 : BaseEngine)
    (l : list BaseEngine) (err1 err2 : Exn) (w2 : WorldState) :
  strict s = true →
  engines s = e :: l →
  hooks_preserve C P →
  (∀ x w, x ∈ e :: l → P w → ∃ w', c_on_shutdown C x w = Return w') →
  c_on_shutdown C e (world_state s) = Raise err2 w2 →
  is_Exception err2 = true →
  P w2 →
  (S (S (length l)) < fuel)%nat →
  ∃ s', _handle_engine_error (stop (contract_hooks C) fuel) e0 err1 s
        = Raised err2 s' ∧
        running s' = false ∧
        engines s' = e :: l ∧
        shutdowns (calls s') = shutdowns (calls s) ++ e :: e :: l.
Proof.
  intros Hs He HP Hq Hraise Hexn Hw2 Hf.
  rewrite handle_strict by done. unfold stop, stop_with.
  destruct fuel as [|fuel]; [lia|]. simpl stop_loop at 1.
  match goal with |- context [list_at ?s1 (engines_id ?s1)] =>
    rewrite (list_at_current s1)
  end.
  simpl. rewrite He. simpl. rewrite Hraise. simpl.
  rewrite Hexn, handle_strict by done. unfold stop_with.
  match goal with |- context [stop_loop _ fuel (engines_id ?s2) 0%nat ?s2] =>
    rewrite (stop_loop_quiet_on C P HP fuel (engines_id s2) (e :: l) 0%nat s2);
      [|by rewrite list_at_current|done|done|simpl; lia]
  end.
  eexists. split; [done|]. simpl. split_and!; try done.
  rewrite !shutdowns_app. simpl.
  change (omap _ (OnShutdown <$> l)) with (shutdowns (OnShutdown <$> l)).
  rewrite shutdowns_of_shutdowns. by rewrite <- app_assoc.
Qed.

Lemma second_failure_replaces_first_witness :
  ∃ s', step_once (contract_hooks shutdown_fails_once) 9
          (three_engines shutdown_fails_once true) = Raised crash s' ∧
        steps (calls s') = [alpha; beta] ∧
        shutdowns (calls s') = [alpha; alpha; beta; gamma].
Proof.
  edestruct (second_failure_replaces_first shutdown_fails_once
               (fun w => meta w !! "down" ≠ None) 9
               (set_world_state
                  (world_state (tick_enter (three_engines shutdown_fails_once true)))
                  (record_call (Step beta)
                     (record_call (Step alpha)
                        (tick_enter (three_engines shutdown_fails_once true)))))
               alpha beta [beta; gamma] boom crash)
    as (s' & Hh & _ & _ & Hsh).
  - vm_compute. reflexivity.
  - vm_compute. reflexivity.
  - split; intros; simpl; repeat case_match; simpl; done.
  - intros x w _ Hw. simpl. rewrite decide_False by done. by exists w.
  - vm_compute. reflexivity.
  - reflexivity.
  - intros Hnone. vm_compute in Hnone. discriminate.
  - simpl. lia.
  - exists s'. split; [|split].
    + rewrite <- Hh. vm_compute. reflexivity.
    + assert (Hh' := Hh). vm_compute in Hh'. injection Hh' as <-.
      vm_compute. reflexivity.
    + rewrite Hsh. vm_compute. reflexivity.
Defined.

(** ** What reaches the caller *)

Section Surfacing.

Variable C : Contract.

Implicit Types (s : OrchestrationEngine) (e : BaseEngine) (l : list BaseEngine).

(** Once [running] is false, the loop of [stop] leaves it false. *)
Lemma stop_loop_running fuel : ∀ k i s,
  running s = false →
  match stop_loop (contract_hooks C) fuel k i s with
  | Done s' | Raised _ s' => running s' = false
  | OutOfFuel => True
  end.
Proof.
  induction fuel as [|fuel IH]; intros k i s Hr; simpl; [done|].
  destruct (list_at s k !! i) as [e|]; [|done].
  destruct (c_on_shutdown C e (world_state s)) as [w|err w]; simpl.
  - by apply IH.
  - destruct (is_Exception err); [|done].
    unfold _handle_engine_error. simpl. destruct (strict s).
    + unfold stop_with.
      match goal with |- context [stop_loop _ fuel ?k' ?i' ?s'] =>
        pose proof (IH k' i' s' eq_refl) as Hin;
        destruct (stop_loop _ fuel k' i' s')
      end; done.
    + by apply IH.
Qed.

Lemma stop_running fuel s :
  match stop (contract_hooks C) fuel s with
  | Done s' | Raised _ s' => running s' = false
  | OutOfFuel => True
  end.
Proof. by apply stop_loop_running. Qed.

(** A failure that leaves [_handle_engine_error] leaves a stopped
    scheduler in strict mode behind. *)
Lemma handle_raised_stopped fuel e err s err' s' :
  _handle_engine_error (stop (contract_hooks C) fuel) e err s = Raised err' s' →
  strict s = true ∧ running s' = false.
Proof.
  destruct (strict s) eqn:Hs.
  - rewrite handle_strict by done.
    match goal with |- context [stop _ fuel ?s1] =>
      pose proof (stop_running fuel s1) as Hstop; destruct (stop _ fuel s1)
    end; [|by intros [= _ <-]|done]. by intros [= _ <-].
  - by rewrite handle_isolated.
Qed.

Lemma tick_loop_raised_stopped fuel l : ∀ s err s',
  is_Exception err = true →
  tick_loop (contract_hooks C) fuel l s = Raised err s' →
  strict s = true ∧ running s' = false.
Proof.
  induction l as [|e l IH]; intros s err s' Hexn; simpl; [done|].
  destruct (c_step C e _ _) as [w|err1 w]; simpl.
  - intros Hr. by apply IH in Hr.
  - destruct (is_Exception err1) eqn:Hexn1; [|intros [= <- <-]; congruence].
    match goal with |- context [_handle_engine_error ?st e err1 ?s1] =>
      destruct (_handle_engine_error st e err1 s1) as [s2|err2 s2|] eqn:Hh
    end; [| |done].
    + pose proof (handle_evolves C fuel e err1
                    (set_world_state w (record_call (Step e) s))) as Hev.
      rewrite Hh in Hev. destruct Hev as [_ _ Hstrict _ _ _].
      apply handle_done_inv in Hh as (Hs & _).
      intros Hr. apply IH in Hr as [Hs2 _]; [|done]. congruence.
    + intros [= <- <-]. by apply handle_raised_stopped in Hh.
Qed.

Lemma stop_loop_raised_strict fuel : ∀ k i s err s',
  is_Exception err = true →
  stop_loop (contract_hooks C) fuel k i s = Raised err s' → strict s = true.
Proof.
  induction fuel as [|fuel IH]; intros k i s err s' Hexn; simpl; [done|].
  destruct (list_at s k !! i) as [e|]; [|done].
  destruct (c_on_shutdown C e (world_state s)) as [w|err1 w]; simpl.
  - intros Hr. by apply IH in Hr.
  - destruct (is_Exception err1) eqn:Hexn1; [|intros [= <- <-]; congruence].
    destruct (strict s) eqn:Hs; [done|].
    rewrite handle_isolated by done. intros Hr. apply IH in Hr; [|done].
    simpl in Hr. congruence.
Qed.

Lemma method_call_registrations fuel m s :
  match method_call (contract_hooks C) fuel m s with
  | Done s' | Raised _ s' =>
      registrations (calls s') = registrations (calls s) ++ registered_in [m]
  | OutOfFuel => True
  end.
Proof.
  destruct m as [[e|v]|n| |]; unfold method_call.
  - pose proof (register_engine_evolves C fuel e s) as Hev.
    change (registered_in [DoRegister (Engine e)]) with [e].
    destruct (register_engine _ fuel (Engine e) s); [| |done];
      destruct Hev as [_ _ _ _ _ Hreg];
      by rewrite Hreg, registrations_enrolled.
  - simpl. by rewrite app_nil_r.
  - simpl. by rewrite app_nil_r.
  - pose proof (stop_evolves C fuel s) as Hev. simpl registered_in.
    destruct (stop _ fuel s); [| |done]; destruct Hev; by rewrite app_nil_r.
  - pose proof (tick_evolves C fuel s) as Hev. unfold step_once.
    simpl registered_in.
    destruct (_tick _ fuel s); [| |done]; destruct Hev; by rewrite app_nil_r.
Qed.

End Surfacing.

(** X17.  Isolated mode contains every hook failure whose class derives
    from [Exception]: with hooks that raise nothing else, registering an
    engine and [step_once] always return normally, and so does [stop];
    no hook failure reaches the caller. *)
Theorem isolated_mode_never_raises (C : Contract) (fuel : nat)
    (s : OrchestrationEngine) (e : BaseEngine) :
  only_exceptions C →
  strict s = false →
  (length (engines s) < fuel)%nat →
  (∃ s', register_engine (contract_hooks C) fuel (Engine e) s = Done s') ∧
  (∃ s', step_once (contract_hooks C) fuel s = Done s') ∧
  (∃ s', stop (contract_hooks C) fuel s = Done s').
Proof.
  intros HC Hs Hf. split_and!.
  - unfold register_engine. simpl.
    destruct (c_on_register C e (world_state s)) eqn:Hreg; simpl; [by eexists|].
    rewrite (only_on_register C HC _ _ _ _ Hreg).
    rewrite handle_isolated by done. by eexists.
  - by apply tick_loop_isolated.
  - destruct (stop_loop_isolated C HC fuel (engines_id (stop_enter s)) (engines s)
                0%nat (stop_enter s)) as (s' & Hd & _); [done|done| |simpl; lia|].
    { apply (list_at_current (stop_enter s)). }
    by exists s'.
Qed.

Lemma isolated_mode_never_raises_witness :
  (∃ s', register_engine (contract_hooks (scripted [1%nat] [2%nat] [3%nat])) 5
           (Engine alpha) (three_engines (scripted [] [] []) false) = Done s') ∧
  (∃ s', step_once (contract_hooks (scripted [1%nat] [2%nat] [3%nat])) 5
           (three_engines (scripted [] [] []) false) = Done s') ∧
  (∃ s', stop (contract_hooks (scripted [1%nat] [2%nat] [3%nat])) 5
           (three_engines (scripted [] [] []) false) = Done s').
Proof.
  apply (isolated_mode_never_raises (scripted [1%nat] [2%nat] [3%nat]) 5
           (three_engines (scripted [] [] []) false) alpha).
  - apply only_exceptions_scripted.
  - vm_compute. reflexivity.
  - vm_compute. lia.
Defined.

(** X18.  A failure of a class that derives from [Exception], raised
    by [step_once] or by [stop], leaves a stopped scheduler behind: the
    scheduler is in strict mode and [running] is false, so a caller that
    catches the exception finds the loop of [start] switched off.  (A
    failure of another class passes through the scheduler untouched.) *)
Theorem raised_means_stopped (C : Contract) (fuel : nat)
    (s s' : OrchestrationEngine) (err : Exn) :
  is_Exception err = true →
  (step_once (contract_hooks C) fuel s = Raised err s' ∨
   stop (contract_hooks C) fuel s = Raised err s') →
  running s' = false ∧ strict s = true.
Proof.
  intros Hexn [Ht|Hst].
  - by apply tick_loop_raised_stopped in Ht as [? ?].
  - pose proof (stop_running C fuel s) as Hstop. rewrite Hst in Hstop.
    split; [done|]. by apply stop_loop_raised_strict in Hst.
Qed.

Lemma raised_means_stopped_witness :
  ∃ s', step_once (contract_hooks (scripted [] [2%nat] [])) 5
          (set_running true (three_engines (scripted [] [] []) true))
        = Raised boom s' ∧
        running (set_running true (three_engines (scripted [] [] []) true)) = true ∧
        running s' = false.
Proof.
  eexists. split; [vm_compute; reflexivity|]. split; [vm_compute; reflexivity|].
  eapply proj1.
  eapply (raised_means_stopped (scripted [] [2%nat] []) 5
            (set_running true (three_engines (scripted [] [] []) true)) _ boom).
  - reflexivity.
  - left. vm_compute. reflexivity.
Defined.

(** X19.  [on_register] is invoked once for every engine handed to
    [register_engine], at that call and in the order of the calls, and by
    nothing else: not by ticks, not by [stop], not by the fault policy. *)
Theorem on_register_once_per_registration (C : Contract) (fuel : nat)
    (ms : list MethodCall) :
  ∀ s s',
  drive (contract_hooks C) fuel ms s = Some s' →
  registrations (calls s') = registrations (calls s) ++ registered_in ms.
Proof.
  induction ms as [|m ms IH]; intros s s'; simpl.
  - intros [= <-]. by rewrite app_nil_r.
  - pose proof (method_call_registrations C fuel m s) as Hm.
    destruct (method_call _ fuel m s) as [s1|err s1|]; [| |done];
      intros Hd; rewrite (IH _ _ Hd), Hm, <- app_assoc; f_equal;
      by destruct m as [[?|?]| | |].
Qed.

Lemma on_register_once_per_registration_witness :
  ∃ s', drive (contract_hooks (scripted [3%nat] [1%nat] [])) 9
          [DoRegister (Engine gamma); DoRegister (NotAnEngine VNone);
           DoRegister (Engine alpha); DoStepOnce; DoStop;
           DoRegister (Engine alpha)]
          (scheduler false) = Some s' ∧
        registrations (calls s') = [gamma; alpha; alpha].
Proof.
  eexists. split; [vm_compute; reflexivity|].
  rewrite (on_register_once_per_registration (scripted [3%nat] [1%nat] []) 9
             [DoRegister (Engine gamma); DoRegister (NotAnEngine VNone);
              DoRegister (Engine alpha); DoStepOnce; DoStop;
              DoRegister (Engine alpha)]
             (scheduler false) _ ltac:(vm_compute; reflexivity)).
  vm_compute. reflexivity.
Defined.

(** * The specification on one tick and on failures *)

(** ** What a tick leaves behind *)

Section TickOutcome.

Variable C : Contract.

Implicit Types (s : OrchestrationEngine) (e : BaseEngine) (l : list BaseEngine).

Lemma step_fold_cons dt e l w :
  step_fold C dt (e :: l) w = step_fold C dt l (reply_world (c_step C e w dt)).
Proof. done. Qed.

(** [stop] and the fault policy step no component. *)
Lemma stop_loop_steps fuel : ∀ k i s,
  match stop_loop (contract_hooks C) fuel k i s with
  | Done s' | Raised _ s' => steps (calls s') = steps (calls s)
  | OutOfFuel => True
  end.
Proof.
  induction fuel as [|fuel IH]; intros k i s; simpl; [done|].
  destruct (list_at s k !! i) as [e|]; [|done].
  assert (∀ s1, calls s1 = calls s ++ [OnShutdown e] →
                steps (calls s1) = steps (calls s)) as Hrec.
  { intros s1 ->. unfold steps. by rewrite omap_app, app_nil_r. }
  destruct (c_on_shutdown C e (world_state s)) as [w|err w]; simpl.
  - match goal with |- context [stop_loop _ fuel k (S i) ?s1] =>
      pose proof (IH k (S i) s1) as Hin; destruct (stop_loop _ fuel k (S i) s1)
    end; [| |done]; rewrite Hin; by apply Hrec.
  - destruct (is_Exception err); [|by apply Hrec].
    unfold _handle_engine_error. simpl. destruct (strict s).
    + unfold stop_with.
      match goal with |- context [stop_loop _ fuel ?k' ?i' ?s1] =>
        pose proof (IH k' i' s1) as Hin; destruct (stop_loop _ fuel k' i' s1)
      end; [| |done]; rewrite Hin; by apply Hrec.
    + match goal with |- context [stop_loop _ fuel ?k' ?i' ?s1] =>
        pose proof (IH k' i' s1) as Hin; destruct (stop_loop _ fuel k' i' s1)
      end; [| |done]; rewrite Hin; by apply Hrec.
Qed.

Lemma handle_steps fuel e err s :
  match _handle_engine_error (stop (contract_hooks C) fuel) e err s with
  | Done s' | Raised _ s' => steps (calls s') = steps (calls s)
  | OutOfFuel => True
  end.
Proof.
  unfold _handle_engine_error. simpl. destruct (strict s); [|done].
  unfold stop, stop_with.
  match goal with |- context [stop_loop _ fuel ?k' ?i' ?s1] =>
    pose proof (stop_loop_steps fuel k' i' s1) as Hin;
    destruct (stop_loop _ fuel k' i' s1)
  end; done.
Qed.

(** Whatever way a tick ends, it stepped an initial stretch of its
    snapshot, each component once and in order. *)
Lemma tick_loop_steps fuel l : ∀ s,
  match tick_loop (contract_hooks C) fuel l s with
  | Done s' | Raised _ s' =>
      ∃ stepped, stepped `prefix_of` l ∧
                 steps (calls s') = steps (calls s) ++ stepped
  | OutOfFuel => True
  end.
Proof.
  induction l as [|e l IH]; intros s; simpl.
  - exists []. by rewrite app_nil_r.
  - assert (∀ s1, calls s1 = calls s ++ [Step e] →
                  steps (calls s1) = steps (calls s) ++ [e]) as Hrec.
    { intros s1 ->. apply steps_snoc_step. }
    assert (∀ s1 o, steps (calls s1) = steps (calls s) ++ [e] →
              match o with
              | Done s' | Raised _ s' =>
                  ∃ stepped, stepped `prefix_of` l ∧
                             steps (calls s') = steps (calls s1) ++ stepped
              | OutOfFuel => True
              end →
              match o with
              | Done s' | Raised _ s' =>
                  ∃ stepped, stepped `prefix_of` e :: l ∧
                             steps (calls s') = steps (calls s) ++ stepped
              | OutOfFuel => True
              end) as Hcons.
    { intros s1 o Hs1 Ho. destruct o as [s'|err' s'|]; [| |done];
        destruct Ho as (stepped & Hpre & Hst); exists (e :: stepped);
        (split; [by apply prefix_cons|]);
        by rewrite Hst, Hs1, <- app_assoc. }
    destruct (c_step C e (world_state s) (tick_duration s)) as [w|err w]; simpl.
    + eapply Hcons; [|apply IH]. by apply Hrec.
    + destruct (is_Exception err).
      * match goal with |- context [_handle_engine_error ?st e err ?s1] =>
          pose proof (handle_steps fuel e err s1) as Hh;
          destruct (_handle_engine_error st e err s1) as [s2|err2 s2|]
        end; [| |done].
        -- eapply Hcons; [|apply IH]. rewrite Hh. by apply Hrec.
        -- exists [e]. split; [apply prefix_cons, prefix_nil|].
           rewrite Hh. by apply Hrec.
      * exists [e]. split; [apply prefix_cons, prefix_nil|]. by apply Hrec.
Qed.

(** A tick that returns ran every [step] hook of its snapshot on the
    world state the one before it left. *)
Lemma tick_loop_done_world fuel l : ∀ s s',
  tick_loop (contract_hooks C) fuel l s = Done s' →
  world_state s' = step_fold C (tick_duration s) l (world_state s).
Proof.
  induction l as [|e l IH]; intros s s'.
  - by intros [= <-].
  - rewrite step_fold_cons. simpl.
    destruct (c_step C e (world_state s) (tick_duration s)) as [w|err w]; simpl.
    + intros Hd. by rewrite (IH _ _ Hd).
    + destruct (is_Exception err); [|done].
      match goal with |- context [_handle_engine_error ?st e err ?s1] =>
        destruct (strict s1) eqn:Hstrict
      end.
      * rewrite handle_strict by done. by destruct (stop _ _ _).
      * rewrite handle_isolated by done. intros Hd. by rewrite (IH _ _ Hd).
Qed.

(** What holds of every scheduler a program can have built. *)
Lemma drive_keeps fuel ms : ∀ s s',
  in_registration_order s →
  drive (contract_hooks C) fuel ms s = Some s' →
  in_registration_order s' ∧ tick_rate s' = tick_rate s ∧
  tick_duration s' = tick_duration s ∧ strict s' = strict s.
Proof.
  induction ms as [|m ms IH]; intros s s' Hs; simpl.
  - by intros [= <-].
  - pose proof (method_call_registration_order C fuel m s Hs) as Hm.
    pose proof (method_call_configuration C fuel m s) as Hc.
    destruct (method_call _ fuel m s) as [s1|err s1|]; [| |done];
      intros Hd; destruct Hc as (Hr & Hd1 & Hs1);
      apply IH in Hd as (? & ? & ? & ?); [|done| |done];
      split_and!; congruence.
Qed.

Lemma drive_from_init fuel rate flag ms s0 s :
  __init__ rate flag = inr s0 →
  drive (contract_hooks C) fuel ms s0 = Some s →
  in_registration_order s ∧ tick_rate s = rate ∧
  tick_duration s = (1.0 / rate)%float ∧ strict s = flag.
Proof.
  unfold __init__. destruct (rate =? 0.0)%float; [done|].
  intros [= <-] Hd. apply drive_keeps in Hd; [done|].
  split; simpl; [constructor|done].
Qed.

End TickOutcome.

(** ** One tick *)

(** C8.  One tick, as [step_once] performs it on any scheduler state.
    First the three updates: the tick counter goes up by one, the time by
    the tick duration, [events] is emptied, and nothing else of the
    scheduler or of the world changes.  Then the walk over the registry,
    in its order, each [step] call on its own under the fault policy: a
    call that returns is followed by the next one; a failure of a class
    that derives from [Exception] goes to [_handle_engine_error] and the
    walk resumes if the policy returns; a failure of another class leaves
    the tick at once.  However the tick ends, the components stepped are
    an initial stretch of the registry, each stepped once, and (the hooks
    leaving the two counters alone) the counter has gone up by one and the
    time by the tick duration; when the tick returns every component of
    the registry was stepped, each on the world state its predecessor
    left, the first on the world state with [events] empty.  In isolated
    mode, the hooks raising nothing outside [Exception], the tick returns;
    with no component it does the three updates and nothing more.  In a
    scheduler built by the constructor and used through its methods the
    order of the registry is the order of priorities, and the tick
    duration is the float [1.0 / tick_rate]. *)
Theorem one_tick_in_order (C : Contract) (fuel : nat) (s : OrchestrationEngine) :
  let H := contract_hooks C in
  let w := world_state s in
  let s0 := tick_enter s in
  (tick (world_state s0) = tick w + 1 ∧
   time (world_state s0) = (time w + tick_duration s)%float ∧
   events (world_state s0) = [] ∧
   entities (world_state s0) = entities w ∧
   meta (world_state s0) = meta w ∧
   extra (world_state s0) = extra w ∧
   s0 = set_world_state (world_state s0) s) ∧
  step_once H fuel s = tick_loop H fuel (engines s) s0 ∧
  (∀ e rest s1,
     tick_loop H fuel (e :: rest) s1 =
       match c_step C e (world_state s1) (tick_duration s1) with
       | Return w' =>
           tick_loop H fuel rest (set_world_state w' (record_call (Step e) s1))
       | Raise err w' =>
           if is_Exception err then
             match _handle_engine_error (stop H fuel) e err
                     (set_world_state w' (record_call (Step e) s1)) with
             | Done s2 => tick_loop H fuel rest s2
             | other => other
             end
           else Raised err (set_world_state w' (record_call (Step e) s1))
       end) ∧
  (∀ s', (step_once H fuel s = Done s' ∨
          ∃ err, step_once H fuel s = Raised err s') →
     (∃ stepped, stepped `prefix_of` engines s ∧
                 steps (calls s') = steps (calls s) ++ stepped) ∧
     (keeps_clock C →
        tick (world_state s') = tick w + 1 ∧
        time (world_state s') = (time w + tick_duration s)%float)) ∧
  (∀ s', step_once H fuel s = Done s' →
     calls s' = calls s ++ (Step <$> engines s) ∧
     world_state s' = step_fold C (tick_duration s) (engines s) (world_state s0)) ∧
  (only_exceptions C → strict s = false → ∃ s', step_once H fuel s = Done s') ∧
  (engines s = [] → step_once H fuel s = Done s0) ∧
  (∀ rate flag ms s_init,
     __init__ rate flag = inr s_init →
     drive H fuel ms s_init = Some s →
     StronglySorted by_priority (engines s) ∧
     tick_duration s = (1.0 / rate)%float).
Proof.
  intros H w s0. split_and!; try done.
  - intros e rest s1. simpl. by destruct (c_step C e _ _).
  - intros s' Hout. split.
    + pose proof (tick_loop_steps C fuel (engines s) s0) as Hst.
      unfold step_once, _tick in Hout.
      change (engines (tick_enter s)) with (engines s) in Hout.
      fold s0 in Hout. fold H in Hst.
      by destruct Hout as [Hd|[err Hr]]; rewrite ?Hd, ?Hr in Hst.
    + intros Hk.
      pose proof (method_call_clock C fuel DoStepOnce s _ _ Hk eq_refl eq_refl)
        as Hc.
      unfold method_call in Hc. fold H in Hc.
      by destruct Hout as [Hd|[err Hr]]; rewrite ?Hd, ?Hr in Hc.
  - intros s' Hd. split.
    + by apply tick_loop_done_calls in Hd.
    + by apply tick_loop_done_world in Hd.
  - intros HC Hs. by apply tick_loop_isolated.
  - intros He. unfold step_once, _tick. simpl. by rewrite He.
  - intros rate flag ms s_init Hinit Hd.
    destruct (drive_from_init C fuel rate flag ms s_init s Hinit Hd)
      as ([Hsorted _] & _ & Hdur & _).
    done.
Qed.

Lemma one_tick_in_order_witness :
  ∃ s', step_once (contract_hooks (scripted [] [2%nat] [])) 5
          (three_engines (scripted [] [2%nat] []) true) = Raised boom s' ∧
        tick (world_state s') = 1 ∧
        (∃ stepped, stepped `prefix_of` [alpha; beta; gamma] ∧
                    steps (calls s') = stepped) ∧
        StronglySorted by_priority (engines (three_engines (scripted [] [2%nat] []) true)).
Proof.
  assert (∃ s', step_once (contract_hooks (scripted [] [2%nat] [])) 5
                  (three_engines (scripted [] [2%nat] []) true) = Raised boom s')
    as [s' Hr] by (eexists; vm_compute; reflexivity).
  destruct (one_tick_in_order (scripted [] [2%nat] []) 5
              (three_engines (scripted [] [2%nat] []) true))
    as (_ & _ & _ & Hout & _ & _ & _ & Hreach).
  destruct (Hout s' (or_intror (ex_intro _ boom Hr)))
    as [(stepped & Hpre & Hst) Hclock].
  destruct (Hclock (keeps_clock_scripted [] [2%nat] [])) as [Htick _].
  destruct (Hreach 10%float true
              [DoRegister (Engine gamma); DoRegister (Engine alpha);
               DoRegister (Engine beta)] (scheduler true))
    as [Hsorted _]; [vm_compute; reflexivity..|].
  assert (engines (three_engines (scripted [] [2%nat] []) true) = [alpha; beta; gamma])
    as He by (vm_compute; reflexivity).
  assert (steps (calls (three_engines (scripted [] [2%nat] []) true)) = [])
    as Hs0 by (vm_compute; reflexivity).
  rewrite He in Hpre. rewrite Hs0 in Hst.
  exists s'. split; [exact Hr|]. split; [|split; [|exact Hsorted]].
  - rewrite Htick. vm_compute. reflexivity.
  - exists stepped. split; [exact Hpre|exact Hst].
Defined.

(** ** Isolated mode *)

(** C7.  Isolated mode, a registered component [e] whose [step] raises
    at its turn in the tick ([s1] is the state the components before it
    left); [e] is listed before the tick.  When the class of the failure
    derives from [Exception] (and the hooks raise nothing of another
    class), the tick returns normally, [e] is not listed after it, and the
    [step] of every component of the registry was invoked in that tick,
    each once and in order, each on the world state its predecessor left:
    the world state after the tick is the result of all these hooks.  A
    failure of another class is raised to the caller at once: nothing is
    evicted and the components after [e] are not stepped. *)
Theorem isolated_step_failure (C : Contract) (fuel : nat)
    (s s1 : OrchestrationEngine) (l1 l2 : list BaseEngine) (e : BaseEngine)
    (err : Exn) (w : WorldState) :
  strict s = false →
  engines s = l1 ++ e :: l2 →
  tick_loop (contract_hooks C) fuel l1 (tick_enter s) = Done s1 →
  c_step C e (world_state s1) (tick_duration s) = Raise err w →
  name e ∈ list_engines s ∧
  if is_Exception err then
    only_exceptions C →
    ∃ s', step_once (contract_hooks C) fuel s = Done s' ∧
          (name e ∉ list_engines s') ∧
          calls s' = calls s ++ (Step <$> engines s) ∧
          world_state s'
            = step_fold C (tick_duration s) (engines s)
                (world_state (tick_enter s))
  else
    ∃ s', step_once (contract_hooks C) fuel s = Raised err s' ∧
          engines s' = engines s1 ∧
          calls s' = calls s ++ (Step <$> l1 ++ [e]) ∧
          world_state s' = w.
Proof.
  intros Hs He Hl1 Hstep.
  pose proof (tick_loop_evolves C fuel l1 (tick_enter s)) as Hev1.
  rewrite Hl1 in Hev1. simpl in Hev1. destruct Hev1 as [_ Hdur Hstrict _ _ _].
  simpl in Hdur, Hstrict.
  pose proof (tick_loop_failure C l1 e l2 fuel (tick_enter s) s1 err w Hl1) as Hfail.
  rewrite Hdur in Hfail. specialize (Hfail Hstep).
  split.
  { unfold list_engines. rewrite He, fmap_app. set_solver. }
  destruct (is_Exception err).
  - intros HC.
    destruct (tick_loop_isolated C fuel (engines s) (tick_enter s) HC Hs) as [s' Hd].
    exists s'. split_and!;
      [done| |by apply tick_loop_done_calls in Hd
       |by apply tick_loop_done_world in Hd].
    rewrite He, Hfail in Hd.
    rewrite handle_isolated in Hd by (simpl; congruence).
    match type of Hd with tick_loop _ _ _ ?s2 = _ =>
      pose proof (tick_loop_evolves C fuel l2 s2) as Hev2;
      rewrite Hd in Hev2; destruct Hev2 as [_ _ _ Hsub _ _]
    end.
    simpl in Hsub. unfold list_engines. intros Hin.
    eapply (elem_of_sublist _ _ (name e)) in Hin; [|by apply fmap_sublist].
    apply list_elem_of_fmap in Hin as (x & Hname & Hx).
    apply list_elem_of_filter in Hx as [Hne _]. by apply Hne.
  - eexists. unfold step_once, _tick.
    change (engines (tick_enter s)) with (engines s). rewrite He, Hfail.
    split; [done|]. simpl. split_and!; try done.
    apply tick_loop_done_calls in Hl1. rewrite Hl1. simpl.
    by rewrite fmap_app, <- app_assoc.
Qed.

Lemma isolated_step_failure_witness :
  ∃ s', step_once (contract_hooks (scripted [] [2%nat] [])) 5
          (three_engines (scripted [] [2%nat] []) false) = Done s' ∧
        "beta" ∈ list_engines (three_engines (scripted [] [2%nat] []) false) ∧
        ("beta" ∉ list_engines s') ∧
        calls s' = calls (three_engines (scripted [] [2%nat] []) false)
                   ++ [Step alpha; Step beta; Step gamma] ∧
        events (world_state s') = [VStr "step:alpha"; VStr "step:gamma"].
Proof.
  destruct (isolated_step_failure (scripted [] [2%nat] []) 5
              (three_engines (scripted [] [2%nat] []) false)
              (set_world_state
                 (note "step:" alpha
                    (world_state (tick_enter (three_engines (scripted [] [2%nat] []) false))))
                 (record_call (Step alpha)
                    (tick_enter (three_engines (scripted [] [2%nat] []) false))))
              [alpha] [gamma] beta boom
              (note "step:" alpha
                 (world_state (tick_enter (three_engines (scripted [] [2%nat] []) false)))))
    as (Hin & Hexn).
  - vm_compute. reflexivity.
  - vm_compute. reflexivity.
  - vm_compute. reflexivity.
  - vm_compute. reflexivity.
  - destruct (Hexn (only_exceptions_scripted [] [2%nat] []))
      as (s' & Hd & Hout & Hcalls & Hworld).
    exists s'. split_and!; [exact Hd|exact Hin|exact Hout| |].
    + rewrite Hcalls. vm_compute. reflexivity.
    + rewrite Hworld. vm_compute. reflexivity.
Defined.

(** C7, as the specification words it, fails: isolated mode, three
    registered components, and the [step] of the second raises
    [KeyboardInterrupt].  [step_once] raises it to the caller; the
    component is still listed, and the third component was not stepped in
    that tick. *)
Lemma isolated_step_failure_counterexample :
  ∃ s', step_once (contract_hooks (interrupted [] [2%nat] [])) 5
          (three_engines (interrupted [] [2%nat] []) false)
        = Raised KeyboardInterrupt s' ∧
        strict (three_engines (interrupted [] [2%nat] []) false) = false ∧
        list_engines (three_engines (interrupted [] [2%nat] []) false)
          = ["alpha"; "beta"; "gamma"] ∧
        list_engines s' = ["alpha"; "beta"; "gamma"] ∧
        steps (calls s') = [alpha; beta] ∧
        events (world_state s') = [VStr "step:alpha"].
Proof. eexists. split_and!; vm_compute; reflexivity. Qed.

(** ** Strict mode *)

Lemma steps_app cs1 cs2 : steps (cs1 ++ cs2) = steps cs1 ++ steps cs2.
Proof. apply omap_app. Qed.

Lemma steps_of_steps l : steps (Step <$> l) = l.
Proof. induction l as [|e l IH]; [done|]. simpl. by f_equal. Qed.

Lemma steps_of_shutdowns l : steps (OnShutdown <$> l) = [].
Proof. by induction l. Qed.

(** C6.  Strict mode, a component [e] whose [step] raises at its turn in
    the tick ([s1] is the state the components before it left), no
    [on_shutdown] hook raising: the components after [e] are not stepped,
    the registry is as before, and [step_once] raises the failure of [e].
    When the class of the failure derives from [Exception], [stop] has
    run first: [running] is false and [on_shutdown] has been invoked once
    for every entry of the registry, in registry order, [e] itself
    included.  A failure of another class reaches the caller with no
    [stop]: [running] is as it was and no [on_shutdown] hook has been
    invoked.  Under [start] the same tick ends [_run_loop] with the same
    failure. *)
Theorem strict_step_failure (C : Contract) (fuel : nat)
    (s s1 : OrchestrationEngine) (l1 l2 : list BaseEngine) (e : BaseEngine)
    (err : Exn) (w : WorldState) :
  strict s = true →
  engines s = l1 ++ e :: l2 →
  tick_loop (contract_hooks C) fuel l1 (tick_enter s) = Done s1 →
  c_step C e (world_state s1) (tick_duration s) = Raise err w →
  quiet_shutdown C (engines s) →
  (length (engines s) < fuel)%nat →
  ∃ s', step_once (contract_hooks C) fuel s = Raised err s' ∧
        (∀ sleep clock last_time now,
           running s = true →
           (tick_duration s <=? now - last_time)%float = true →
           run_loop_from (contract_hooks C) sleep fuel (now :: clock) last_time s
             = Failed err s') ∧
        engines s' = engines s ∧
        steps (calls s') = steps (calls s) ++ l1 ++ [e] ∧
        if is_Exception err then
          running s' = false ∧
          calls s' = calls s ++ (Step <$> l1 ++ [e])
                     ++ (OnShutdown <$> engines s) ∧
          world_state s' = shutdown_fold C (engines s) w
        else
          running s' = running s ∧
          calls s' = calls s ++ (Step <$> l1 ++ [e]) ∧
          world_state s' = w.
Proof.
  intros Hs He Hl1 Hstep Hq Hf.
  cut (∃ s', step_once (contract_hooks C) fuel s = Raised err s' ∧
        engines s' = engines s ∧
        steps (calls s') = steps (calls s) ++ l1 ++ [e] ∧
        if is_Exception err then
          running s' = false ∧
          calls s' = calls s ++ (Step <$> l1 ++ [e])
                     ++ (OnShutdown <$> engines s) ∧
          world_state s' = shutdown_fold C (engines s) w
        else
          running s' = running s ∧
          calls s' = calls s ++ (Step <$> l1 ++ [e]) ∧
          world_state s' = w).
  { intros (s' & Hraised & Hrest). exists s'. split; [done|]. split; [|done].
    intros sleep clock last_time now Hrun Hdue. simpl. rewrite Hrun, Hdue.
    change (_tick (contract_hooks C) fuel s)
      with (step_once (contract_hooks C) fuel s).
    by rewrite Hraised. }
  destruct (tick_loop_strict_done C fuel l1 (tick_enter s) s1 Hs Hl1)
    as (Hs1 & He1 & Hd1).
  simpl in He1, Hd1.
  pose proof (tick_loop_done_calls C fuel l1 _ _ Hl1) as Hc1. simpl in Hc1.
  pose proof (tick_loop_done_running C fuel l1 _ _ Hl1) as Hr1. simpl in Hr1.
  unfold step_once, _tick.
  change (engines (tick_enter s)) with (engines s). rewrite He.
  rewrite (tick_loop_failure C l1 e l2 fuel _ s1 err w); [|done|by rewrite Hd1].
  destruct (is_Exception err).
  - rewrite handle_strict by done.
    rewrite stop_quiet; simpl; [|by rewrite He1|by rewrite He1].
    eexists. split; [done|]. simpl.
    rewrite He1, Hc1, fmap_app, <- He. simpl.
    split_and!; try done.
    + rewrite !steps_app, steps_of_steps, steps_of_shutdowns. simpl.
      by rewrite app_nil_r, <- app_assoc.
    + by rewrite <- !app_assoc.
  - eexists. split; [done|]. simpl.
    rewrite He1, Hc1, Hr1, fmap_app. simpl.
    split_and!; try done.
    + rewrite !steps_app, steps_of_steps. simpl. by rewrite <- app_assoc.
    + by rewrite <- !app_assoc.
Qed.

Lemma strict_step_failure_witness :
  ∃ s', step_once (contract_hooks (scripted [] [2%nat] [])) 5
          (three_engines (scripted [] [2%nat] []) true) = Raised boom s' ∧
        running s' = false ∧
        engines s' = [alpha; beta; gamma] ∧
        calls s' = calls (three_engines (scripted [] [2%nat] []) true)
                   ++ [Step alpha; Step beta]
                   ++ [OnShutdown alpha; OnShutdown beta; OnShutdown gamma] ∧
        events (world_state s')
          = [VStr "step:alpha"; VStr "bye:alpha"; VStr "bye:beta"; VStr "bye:gamma"].
Proof.
  destruct (strict_step_failure (scripted [] [2%nat] []) 5
              (three_engines (scripted [] [2%nat] []) true)
              (set_world_state
                 (note "step:" alpha
                    (world_state (tick_enter (three_engines (scripted [] [2%nat] []) true))))
                 (record_call (Step alpha)
                    (tick_enter (three_engines (scripted [] [2%nat] []) true))))
              [alpha] [gamma] beta boom
              (note "step:" alpha
                 (world_state (tick_enter (three_engines (scripted [] [2%nat] []) true)))))
    as (s' & Hraised & _ & Heng & _ & Hrun & Hcalls & Hworld).
  - vm_compute. reflexivity.
  - vm_compute. reflexivity.
  - vm_compute. reflexivity.
  - vm_compute. reflexivity.
  - apply quiet_shutdown_scripted.
  - vm_compute. lia.
  - exists s'. split_and!; [exact Hraised|exact Hrun|exact Heng|exact Hcalls|].
    rewrite Hworld. vm_compute. reflexivity.
Defined.

(** C6, as the specification words it, fails.  Strict mode, three
    registered components, and the [step] of the second raises
    [KeyboardInterrupt]: [step_once] raises it and no [on_shutdown] hook
    has been invoked; under [start], [running] is still true when the
    failure reaches the caller.  And when the [on_shutdown] of the first
    component raises during the shutdown that follows a failed [step],
    that component is shut down twice and the failure that reaches the
    caller is not the one of the [step]. *)
Lemma strict_step_failure_counterexample :
  (∃ s', step_once (contract_hooks (interrupted [] [2%nat] [])) 5
           (three_engines (interrupted [] [2%nat] []) true)
         = Raised KeyboardInterrupt s' ∧
         strict (three_engines (interrupted [] [2%nat] []) true) = true ∧
         list_engines s' = ["alpha"; "beta"; "gamma"] ∧
         steps (calls s') = [alpha; beta] ∧
         shutdowns (calls s') = []) ∧
  (∃ s', start (contract_hooks (interrupted [] [2%nat] [])) (fun _ => None) 5
           [0.0; 5.0]%float (three_engines (interrupted [] [2%nat] []) true)
         = Failed KeyboardInterrupt s' ∧
         running s' = true ∧
         shutdowns (calls s') = []) ∧
  (∃ s', step_once (contract_hooks shutdown_fails_once) 9
           (three_engines shutdown_fails_once true) = Raised crash s' ∧
         crash ≠ boom ∧
         steps (calls s') = [alpha; beta] ∧
         shutdowns (calls s') = [alpha; alpha; beta; gamma]).
Proof.
  split_and!; eexists; split_and!; try (vm_compute; reflexivity).
  intros [=].
Qed.

(** C1.  Strict mode, the [on_register] hook of [e] raises, no
    [on_shutdown] hook raising: [register_engine] raises the failure of
    [on_register], and [e] is still in the registry, at its place in
    priority order.  Strict mode evicts nothing.  When the class of the
    failure derives from [Exception], [stop] has run before the failure
    is raised: [running] is false and [on_shutdown] has been invoked once
    for every entry of the registry, [e] included.  A failure of another
    class reaches the caller with no [stop]. *)
Theorem strict_register_failure (C : Contract) (fuel : nat)
    (s : OrchestrationEngine) (e : BaseEngine) (err : Exn) (w : WorldState) :
  strict s = true →
  c_on_register C e (world_state s) = Raise err w →
  quiet_shutdown C (e :: engines s) →
  (S (length (engines s)) < fuel)%nat →
  ∃ s', register_engine (contract_hooks C) fuel (Engine e) s = Raised err s' ∧
        engines s' = sort_by_priority (engines s ++ [e]) ∧
        name e ∈ list_engines s' ∧
        if is_Exception err then
          running s' = false ∧
          calls s' = calls s ++ [OnRegister e]
                     ++ (OnShutdown <$> sort_by_priority (engines s ++ [e])) ∧
          world_state s'
            = shutdown_fold C (sort_by_priority (engines s ++ [e])) w
        else
          running s' = running s ∧
          calls s' = calls s ++ [OnRegister e] ∧
          world_state s' = w.
Proof.
  intros Hs Hreg Hq Hf.
  assert (sort_by_priority (engines s ++ [e]) ≡ₚ e :: engines s) as Hperm.
  { rewrite sort_by_priority_perm. by rewrite Permutation_app_comm. }
  assert (name e ∈ name <$> sort_by_priority (engines s ++ [e])) as Hin.
  { apply list_elem_of_fmap. exists e. split; [done|]. rewrite Hperm. left. }
  unfold register_engine. simpl. rewrite Hreg. simpl.
  destruct (is_Exception err).
  - rewrite handle_strict by done.
    rewrite stop_quiet; simpl.
    + eexists. split; [done|]. simpl. split_and!; try done.
      by rewrite <- app_assoc.
    + intros x w0 Hx. apply Hq. by rewrite <- Hperm.
    + rewrite Hperm. simpl. lia.
  - eexists. split; [done|]. simpl. by split_and!.
Qed.

Lemma strict_register_failure_witness :
  ∃ s', register_engine (contract_hooks (scripted [1%nat] [] [])) 5
          (Engine alpha)
          (after_calls (scripted [] [] [])
             [CallRegister (Engine gamma); CallRegister (Engine beta)]
             (scheduler true))
        = Raised boom s' ∧
        engines s' = [alpha; beta; gamma] ∧
        running s' = false.
Proof.
  destruct (strict_register_failure (scripted [1%nat] [] []) 5
              (after_calls (scripted [] [] [])
                 [CallRegister (Engine gamma); CallRegister (Engine beta)]
                 (scheduler true))
              alpha boom empty_world)
    as (s' & Hraised & Heng & _ & Hrun & _).
  - vm_compute. reflexivity.
  - vm_compute. reflexivity.
  - apply quiet_shutdown_scripted.
  - vm_compute. lia.
  - exists s'. split_and!; [exact Hraised| |exact Hrun].
    rewrite Heng. vm_compute. reflexivity.
Defined.

(** C1, as the specification words it, fails: in strict mode a component
    whose [on_register] raises is still listed after [register_engine]
    raised. *)
Lemma strict_register_failure_counterexample :
  ∃ s', register_engine (contract_hooks (scripted [1%nat] [] [])) 5
          (Engine alpha) (scheduler true) = Raised boom s' ∧
        strict (scheduler true) = true ∧
        list_engines s' = ["alpha"].
Proof. eexists. split_and!; vm_compute; reflexivity. Qed.

(** * The specification on the world state handed out *)


